(** * picolibc hooks of Zephyr: [_sbrk] and the console read/write loops

    A shallow embedding of [lib/libc/picolibc/libc-hooks.c].  The heap-growth
    primitive [_sbrk] and the loops [z_impl_zephyr_read_stdin] and
    [z_impl_zephyr_write_stdout] are transcribed statement by statement; C
    integers are [Z] with every conversion and wrap-around written out. *)

From Stdlib Require Import ZArith List Bool Lia Permutation.
From Stdlib Require Strings.Byte.
Import ListNotations.
Open Scope Z_scope.

(** ** C integer types *)

Module CInt.

(** Conversion to an unsigned type of [bits] bits: reduction modulo [2^bits]. *)
Definition to_unsigned (bits z : Z) : Z := z mod 2 ^ bits.

(** Conversion to a signed type of [bits] bits (two's complement). *)
Definition to_signed (bits z : Z) : Z :=
  (z + 2 ^ (bits - 1)) mod 2 ^ bits - 2 ^ (bits - 1).

Definition INT_MAX : Z := 2147483647.
Definition UINT_BITS : Z := 32.

(** The two data models Zephyr is built for: 32-bit targets, where [intptr_t],
    [size_t] and pointers are 32 bits wide, and 64-bit targets (the file itself
    tests [CONFIG_ARM64]), where they are 64 bits wide.  [unsigned int] is 32
    bits in both. *)
Inductive data_model : Type := ILP32 | LP64.

Definition ptr_bits (m : data_model) : Z :=
  match m with ILP32 => 32 | LP64 => 64 end.

Definition INTPTR_MIN (m : data_model) : Z := - 2 ^ (ptr_bits m - 1).
Definition INTPTR_MAX (m : data_model) : Z := 2 ^ (ptr_bits m - 1) - 1.

End CInt.
Import CInt.

(** ** Build configuration *)

(** The three ways the file defines [HEAP_BASE] and [MAX_HEAP_SIZE]
    (lines 25-86):
    - [HEAP_MMU]: [CONFIG_MMU]; [heap_base] and the [size_t] variable
      [max_heap_size] are set by [malloc_prepare];
    - [HEAP_ALIGNED]: [CONFIG_PICOLIBC_ALIGNED_HEAP_SIZE]; [heap_base] is a
      static array and [MAX_HEAP_SIZE] is the Kconfig constant itself, an
      [int] literal;
    - [HEAP_SRAM]: the unused SRAM after [_end]; both macros are [uintptr_t]
      arithmetic on linker symbols. *)
Inductive heap_config : Type := HEAP_MMU | HEAP_ALIGNED | HEAP_SRAM.

Record target : Type := Target {
  model : data_model;
  config : heap_config
}.

(** The type of the expression [MAX_HEAP_SIZE]: [int] under [HEAP_ALIGNED],
    an unsigned type of pointer width otherwise. *)
Definition max_is_int (t : target) : bool :=
  match config t with HEAP_ALIGNED => true | _ => false end.

(** ** The semaphore *)

Module Sem.

(** [sys_sem_take] and [sys_sem_give] come from [<zephyr/sys/sem.h>], which
    is not part of the sources at hand; they are written after the
    specification, which describes a binary mutual-exclusion primitive
    (count 1) with blocking acquire and release.  A semaphore is its count;
    [SYS_SEM_DEFINE(heap_sem, 1, 1)] gives the initial count 1 and the
    limit 1. *)
Definition limit : Z := 1.
Definition initial : Z := 1.

(** Modelled from the spec: [sys_sem_take(&sem, K_FOREVER)], the blocking
    acquire.  It decrements a positive count; with a zero count the caller
    waits (no result). *)
Definition sys_sem_take (count : Z) : option Z :=
  if 0 <? count then Some (count - 1) else None.

(** Modelled from the spec: [sys_sem_give(&sem)], the release.  It
    increments the count unless it is at its limit. *)
Definition sys_sem_give (count : Z) : Z :=
  if count <? limit then count + 1 else count.

End Sem.

(** ** State *)

(** The file-scope objects [_sbrk] works on.  [heap_base] and [max_heap_size]
    are variables under [HEAP_MMU]; under the other two configurations the
    fields hold the values of the constant expressions [HEAP_BASE] and
    [MAX_HEAP_SIZE].  [heap_sz] is the [unsigned int] of line 115 and
    [heap_sem] the count of the semaphore of line 358. *)
Record libc_state : Type := LibcState {
  heap_base : Z;
  max_heap_size : Z;
  heap_sz : Z;
  heap_sem : Z
}.

Definition set_heap_sz (st : libc_state) (v : Z) : libc_state :=
  {| heap_base := heap_base st; max_heap_size := max_heap_size st;
     heap_sz := v; heap_sem := heap_sem st |}.

Definition set_heap_sem (st : libc_state) (v : Z) : libc_state :=
  {| heap_base := heap_base st; max_heap_size := max_heap_size st;
     heap_sz := heap_sz st; heap_sem := v |}.

(** State at start-up: [heap_sz] lives in zero-initialised storage
    ([LIBC_BSS]) and the semaphore starts with count 1. *)
Definition boot_state (base capacity : Z) : libc_state :=
  {| heap_base := base; max_heap_size := capacity;
     heap_sz := 0; heap_sem := Sem.initial |}.

(** ** [_sbrk] *)

(** [(char * )HEAP_BASE + heap_sz]: an address of pointer width. *)
Definition ptr_add (t : target) (base off : Z) : Z :=
  to_unsigned (ptr_bits (model t)) (base + off).

(** [(void * )-1]. *)
Definition SBRK_FAILED (t : target) : Z :=
  to_unsigned (ptr_bits (model t)) (-1).

(** The value of [heap_sz + count] after the usual arithmetic conversions.
    With a 32-bit [intptr_t] the sum is computed in a 32-bit unsigned type;
    with a 64-bit [intptr_t] the [unsigned int] is converted to [long] and the
    sum is a signed 64-bit value (overflow is written as two's-complement
    wrap-around). *)
Definition heap_sum (t : target) (sz count : Z) : Z :=
  match model t with
  | ILP32 => to_unsigned 32 (sz + count)
  | LP64 => to_signed 64 (sz + count)
  end.

(** The comparison [(heap_sz + count) < MAX_HEAP_SIZE], [s] being the value
    of the left operand.  It is unsigned except where a [long] meets the
    [int] constant of [HEAP_ALIGNED]. *)
Definition heap_fits (t : target) (s max : Z) : bool :=
  match model t with
  | ILP32 => s <? to_unsigned 32 max
  | LP64 =>
      if max_is_int t then s <? max
      else to_unsigned 64 s <? to_unsigned 64 max
  end.

(** The condition of the [if] of line 372. *)
Definition sbrk_test (t : target) (st : libc_state) (count : Z) : bool :=
  heap_fits t (heap_sum t (heap_sz st) count) (max_heap_size st).

(** [heap_sz += count], stored back into the [unsigned int]. *)
Definition heap_sz_add (sz count : Z) : Z :=
  to_unsigned UINT_BITS (sz + count).

(** [void *_sbrk(intptr_t count)].  The result is [None] when the caller
    would wait on the semaphore; otherwise the returned pointer and the new
    state. *)
Definition _sbrk (t : target) (count : Z) (st : libc_state)
  : option (Z * libc_state) :=
  match Sem.sys_sem_take (heap_sem st) with
  | None => None
  | Some sem =>
      let st := set_heap_sem st sem in
      let ptr := ptr_add t (heap_base st) (heap_sz st) in
      let '(ret, st) :=
        if sbrk_test t st count
        then (ptr, set_heap_sz st (heap_sz_add (heap_sz st) count))
        else (SBRK_FAILED t, st) in
      let st := set_heap_sem st (Sem.sys_sem_give (heap_sem st)) in
      Some (ret, st)
  end.

(** Serial callers: the calls of [counts] one after the other, each logged
    as the pair of its argument and the pointer it returned. *)
Fixpoint sbrk_calls (t : target) (counts : list Z) (st : libc_state)
  : option (list (Z * Z) * libc_state) :=
  match counts with
  | [] => Some ([], st)
  | c :: cs =>
      match _sbrk t c st with
      | None => None
      | Some (ret, st) =>
          match sbrk_calls t cs st with
          | None => None
          | Some (log, st) => Some ((c, ret) :: log, st)
          end
      end
  end.

(** The calls of a log that did not return [(void * )-1]. *)
Definition granted (t : target) (log : list (Z * Z)) : list (Z * Z) :=
  filter (fun r => negb (snd r =? SBRK_FAILED t)) log.




(** ** Well-formed targets, states and arguments *)

(** The heap region: a non-negative base address; a size of at most
    [INT_MAX] bytes ([MAX_HEAP_SIZE] is at most the Kconfig [int]
    [CONFIG_PICOLIBC_LIBC_MAX_MAPPED_REGION_SIZE] under [HEAP_MMU], is the
    Kconfig [int] [CONFIG_PICOLIBC_ALIGNED_HEAP_SIZE] under [HEAP_ALIGNED],
    and is a part of the SRAM under [HEAP_SRAM]); and an end address, one
    past the last byte, that is a pointer below [(void * )-1], so that the
    value reporting failure is no address of the heap. *)
Definition region_ok (t : target) (st : libc_state) : Prop :=
  0 <= heap_base st /\
  0 <= max_heap_size st <= INT_MAX /\
  heap_base st + max_heap_size st < 2 ^ ptr_bits (model t) - 1.

(** The invariant of the specification: [0 <= mark <= capacity]. *)
Definition heap_inv (st : libc_state) : Prop :=
  0 <= heap_sz st <= max_heap_size st.

(** A state between calls: region and invariant as above, semaphore free. *)
Definition heap_ok (t : target) (st : libc_state) : Prop :=
  region_ok t st /\ heap_inv st /\ heap_sem st = 1.

(** Largest argument for which [heap_sz + count] cannot overflow.  On LP64
    the sum is a [long]; arguments within [INT_MAX] of [INTPTR_MAX] could
    overflow it, which C leaves undefined, so they are left out. *)
Definition COUNT_MAX (m : data_model) : Z :=
  match m with
  | ILP32 => INTPTR_MAX ILP32
  | LP64 => INTPTR_MAX LP64 - INT_MAX
  end.

(** An argument of [_sbrk]: an [intptr_t] below [COUNT_MAX]. *)
Definition count_ok (t : target) (count : Z) : Prop :=
  INTPTR_MIN (model t) <= count <= COUNT_MAX (model t).

(** Targets on which the comparison of line 372 is unsigned: every 32-bit
    target, and the 64-bit ones where [MAX_HEAP_SIZE] is not the [int]
    constant. *)
Definition unsigned_compare (t : target) : bool :=
  match model t with
  | ILP32 => true
  | LP64 => negb (max_is_int t)
  end.

(** ** [_sbrk] called from several contexts *)

Module Conc.

(** Where a context stands inside [_sbrk]; the locals [ptr] and [ret] are
    carried by the program points that have them. *)
Inductive pc : Type :=
| AtTake                (* before [sys_sem_take(&heap_sem, K_FOREVER)] *)
| AtPtr                 (* before [ptr = HEAP_BASE + heap_sz] *)
| AtTest (ptr : Z)      (* before the test of the [if] *)
| AtAdd (ptr : Z)       (* before [heap_sz += count; ret = ptr] *)
| AtFail                (* before [ret = (void * )-1] *)
| AtGive (ret : Z)      (* before [sys_sem_give(&heap_sem)] *)
| Returned (ret : Z).   (* after [return ret] *)

(** A context calling [_sbrk(arg)]. *)
Record thread : Type := Thread { arg : Z; at_pc : pc }.

(** The program points between the take and the give. *)
Definition holds_lock (p : pc) : bool :=
  match p with
  | AtPtr | AtTest _ | AtAdd _ | AtFail | AtGive _ => true
  | AtTake | Returned _ => false
  end.

(** The program points whose statement reads or writes [heap_sz]. *)
Definition touches_mark (p : pc) : bool :=
  match p with
  | AtPtr | AtTest _ | AtAdd _ => true
  | _ => false
  end.

Definition has_returned (p : pc) : bool :=
  match p with Returned _ => true | _ => false end.

(** One statement of [_sbrk], run by one context on the shared state.
    [None]: the context cannot move (it waits for the semaphore, or it has
    returned). *)
Definition step_thread (t : target) (th : thread) (st : libc_state)
  : option (thread * libc_state) :=
  match at_pc th with
  | AtTake =>
      match Sem.sys_sem_take (heap_sem st) with
      | None => None
      | Some sem => Some (Thread (arg th) AtPtr, set_heap_sem st sem)
      end
  | AtPtr =>
      Some (Thread (arg th) (AtTest (ptr_add t (heap_base st) (heap_sz st))),
            st)
  | AtTest ptr =>
      Some (Thread (arg th)
              (if sbrk_test t st (arg th) then AtAdd ptr else AtFail), st)
  | AtAdd ptr =>
      Some (Thread (arg th) (AtGive ptr),
            set_heap_sz st (heap_sz_add (heap_sz st) (arg th)))
  | AtFail => Some (Thread (arg th) (AtGive (SBRK_FAILED t)), st)
  | AtGive ret =>
      Some (Thread (arg th) (Returned ret),
            set_heap_sem st (Sem.sys_sem_give (heap_sem st)))
  | Returned _ => None
  end.

(** The contexts and the state they share. *)
Record system : Type := System { shared : libc_state; threads : list thread }.

Fixpoint replace_nth (i : nat) (th : thread) (ths : list thread)
  : list thread :=
  match ths, i with
  | [], _ => []
  | _ :: rest, O => th :: rest
  | x :: rest, S j => x :: replace_nth j th rest
  end.

(** The scheduler picks any context that can move. *)
Inductive sys_step (t : target) (i : nat) : system -> system -> Prop :=
| Sys_step : forall s th th' st',
    nth_error (threads s) i = Some th ->
    step_thread t th (shared s) = Some (th', st') ->
    sys_step t i s (System st' (replace_nth i th' (threads s))).

Inductive reachable (t : target) (s0 : system) : system -> Prop :=
| Reach_start : reachable t s0 s0
| Reach_step : forall s s' i,
    reachable t s0 s -> sys_step t i s s' -> reachable t s0 s'.

(** Every context about to enter [_sbrk]. *)
Definition start (counts : list Z) (st : libc_state) : system :=
  System st (map (fun c => Thread c AtTake) counts).

Definition holders (ths : list thread) : Z :=
  Z.of_nat (length (filter (fun th => holds_lock (at_pc th)) ths)).

(** One context running alone until it returns or has to wait. *)
Fixpoint run_alone (fuel : nat) (t : target) (th : thread) (st : libc_state)
  : thread * libc_state :=
  match fuel with
  | O => (th, st)
  | S fuel =>
      match step_thread t th st with
      | None => (th, st)
      | Some (th, st) => run_alone fuel t th st
      end
  end.

(** One move of context [i], as a function. *)
Definition sys_move (t : target) (i : nat) (s : system) : option system :=
  match nth_error (threads s) i with
  | None => None
  | Some th =>
      match step_thread t th (shared s) with
      | None => None
      | Some (th', st') => Some (System st' (replace_nth i th' (threads s)))
      end
  end.

(** The moves of a schedule, given as the list of the contexts that move. *)
Fixpoint schedule (t : target) (order : list nat) (s : system)
  : option system :=
  match order with
  | [] => Some s
  | i :: rest =>
      match sys_move t i s with
      | None => None
      | Some s' => schedule t rest s'
      end
  end.

(** Weight of a context in the count of lock holders. *)
Definition holding (th : thread) : Z :=
  if holds_lock (at_pc th) then 1 else 0.

(** The count of the semaphore and the number of contexts between the take
    and the give add up to one. *)
Definition lock_inv (s : system) : Prop :=
  0 <= heap_sem (shared s) /\
  heap_sem (shared s) + holders (threads s) = 1.

End Conc.

(** ** Console input and output *)

Module Console.

Definition EOF : Z := -1.

(** ['\n'] and ['\r']. *)
Definition NL : Byte.byte := Byte.x0a.
Definition CR : Byte.byte := Byte.x0d.

(** An [int] stored into a [char]: its low eight bits. *)
Definition char_of_int (c : Z) : Byte.byte :=
  match Byte.of_N (Z.to_N (to_unsigned 8 c)) with
  | Some b => b
  | None => Byte.x00
  end.

Definition int_of_char (b : Byte.byte) : Z := Z.of_N (Byte.to_N b).

(** [getchar()] on an input of pending bytes: the next byte as an [int], or
    [EOF] when there is none. *)
Definition getchar (input : list Byte.byte) : Z * list Byte.byte :=
  match input with
  | [] => (EOF, [])
  | b :: rest => (int_of_char b, rest)
  end.

(** [putchar(c)]: [c] is appended to what has been written. *)
Definition putchar (c : Byte.byte) (output : list Byte.byte) : list Byte.byte :=
  output ++ [c].

(** [*(buf + i) = c]; [None] outside the buffer. *)
Fixpoint store (buf : list Byte.byte) (i : nat) (c : Byte.byte)
  : option (list Byte.byte) :=
  match buf, i with
  | [], _ => None
  | _ :: rest, O => Some (c :: rest)
  | b :: rest, S j =>
      match store rest j c with
      | Some rest => Some (b :: rest)
      | None => None
      end
  end.

Definition is_eol (b : Byte.byte) : bool := Byte.eqb b NL || Byte.eqb b CR.

(** The loop of [z_impl_zephyr_read_stdin] from index [i] on, with [n]
    iterations left before [i < nbytes] fails. *)
Fixpoint read_loop (n i : nat) (buf input : list Byte.byte)
  : option (nat * list Byte.byte * list Byte.byte) :=
  match n with
  | O => Some (i, buf, input)
  | S n =>
      let '(c, input) := getchar input in
      match store buf i (char_of_int c) with
      | None => None
      | Some buf =>
          match nth_error buf i with
          | None => None
          | Some b =>
              if is_eol b then Some (S i, buf, input)
              else read_loop n (S i) buf input
          end
      end
  end.

(** [int z_impl_zephyr_read_stdin(char *buf, int nbytes)]: the value
    returned, the buffer and the input left.  [None]: an access outside
    [buf]. *)
Definition z_impl_zephyr_read_stdin (buf : list Byte.byte) (nbytes : Z)
    (input : list Byte.byte) : option (Z * list Byte.byte * list Byte.byte) :=
  match read_loop (Z.to_nat nbytes) 0 buf input with
  | Some (i, buf, input) => Some (Z.of_nat i, buf, input)
  | None => None
  end.

(** The loop of [z_impl_zephyr_write_stdout] from index [i] on, with [n]
    iterations left. *)
Fixpoint write_loop (n i : nat) (buf output : list Byte.byte)
  : option (list Byte.byte) :=
  match n with
  | O => Some output
  | S n =>
      match nth_error buf i with
      | None => None
      | Some b =>
          let output := if Byte.eqb b NL then putchar CR output else output in
          let output := putchar b output in
          write_loop n (S i) buf output
      end
  end.

(** [int z_impl_zephyr_write_stdout(const void *buffer, int nbytes)]: the
    value returned and everything written so far.  [None]: an access outside
    [buffer]. *)
Definition z_impl_zephyr_write_stdout (buffer : list Byte.byte) (nbytes : Z)
    (output : list Byte.byte) : option (Z * list Byte.byte) :=
  match write_loop (Z.to_nat nbytes) 0 buffer output with
  | Some output => Some (nbytes, output)
  | None => None
  end.

(** What the specification of the write loop emits for one byte. *)
Definition expand (b : Byte.byte) : list Byte.byte :=
  if Byte.eqb b NL then [CR; NL] else [b].

(** The byte the [k]-th [getchar] of a call leaves in the buffer. *)
Definition incoming (input : list Byte.byte) (k : nat) : Byte.byte :=
  char_of_int (nth k (map int_of_char input) EOF).

End Console.

(** ** More about serial callers *)




(** ** More about concurrent callers *)

Module Linear.

Import Conc.

(** The calls that have returned, each as its argument and its result. *)
Definition returned_log (ths : list thread) : list (Z * Z) :=
  flat_map (fun th => match at_pc th with
                      | Returned ret => [(arg th, ret)]
                      | _ => []
                      end) ths.

Definition all_returned (ths : list thread) : bool :=
  forallb (fun th => has_returned (at_pc th)) ths.

(** How the shared state and the locals of a context inside the critical
    section relate to the state [st1] the context found when it took the
    semaphore. *)
Definition holder_view (t : target) (st1 : libc_state) (th : thread)
    (sh : libc_state) : Prop :=
  match at_pc th with
  | AtTake | Returned _ => True
  | AtPtr => sh = set_heap_sem st1 0
  | AtTest ptr =>
      sh = set_heap_sem st1 0 /\
      ptr = ptr_add t (heap_base st1) (heap_sz st1)
  | AtAdd ptr =>
      sh = set_heap_sem st1 0 /\
      ptr = ptr_add t (heap_base st1) (heap_sz st1) /\
      sbrk_test t st1 (arg th) = true
  | AtFail =>
      sh = set_heap_sem st1 0 /\ sbrk_test t st1 (arg th) = false
  | AtGive ret =>
      exists st2,
        _sbrk t (arg th) st1 = Some (ret, st2) /\ sh = set_heap_sem st2 0
  end.

(** The calls that have returned are, in some order, a serial run from the
    initial state [st0]; the state [st1] that run ends in is the shared
    state, up to what the context inside the critical section has done. *)
Definition serial_inv (t : target) (st0 : libc_state) (counts : list Z)
    (s : system) : Prop :=
  map arg (threads s) = counts /\
  exists log st1,
    sbrk_calls t (map fst log) st0 = Some (log, st1) /\
    Permutation log (returned_log (threads s)) /\
    heap_sem st1 = 1 /\
    (holders (threads s) = 0 -> shared s = st1) /\
    (forall i th, nth_error (threads s) i = Some th ->
                  holder_view t st1 th (shared s)).

(** Statements a context still has to run before it has returned. *)
Definition remaining (p : pc) : nat :=
  match p with
  | AtTake => 5
  | AtPtr => 4
  | AtTest _ => 3
  | AtAdd _ | AtFail => 2
  | AtGive _ => 1
  | Returned _ => 0
  end.

Definition work (ths : list thread) : nat :=
  fold_right Nat.add 0%nat (map (fun th => remaining (at_pc th)) ths).

(** States reached in exactly [k] moves. *)
Inductive reachable_in (t : target) (s0 : system) : nat -> system -> Prop :=
| Reach_in_start : reachable_in t s0 0 s0
| Reach_in_step : forall k s s' i,
    reachable_in t s0 k s -> sys_step t i s s' -> reachable_in t s0 (S k) s'.

End Linear.

(** ** [malloc_prepare] *)

Module Prepare.

(** [struct k_mem_partition], as far as the file uses it. *)
Record k_mem_partition : Type := Partition {
  start : Z;
  size : Z;
  attr : Z
}.

(** What Kconfig and the kernel supply to [malloc_prepare]: the values of
    the constants and switches, the result of [k_mem_free_get()] and, for
    each size, the address [k_mem_map(size, K_MEM_PERM_RW)] returns (0 is
    [NULL]). *)
Record kernel : Type := Kernel {
  CONFIG_PICOLIBC_LIBC_MAX_MAPPED_REGION_SIZE : Z;
  k_mem_free_get : Z;
  k_mem_map : Z -> Z;
  K_MEM_PARTITION_P_RW_U_RW : Z;
  Z_MALLOC_PARTITION_EXISTS : bool;
  CONFIG_ASSERT : bool
}.

(** The macro [MIN(a, b)] of [<zephyr/sys/util.h>], a header that is not
    among the sources at hand, with its usual definition
    [((a) < (b)) ? (a) : (b)], on values already converted to the common
    type. *)
Definition MIN (a b : Z) : Z := if a <? b then a else b.

Definition set_heap_base (st : libc_state) (v : Z) : libc_state :=
  {| heap_base := v; max_heap_size := max_heap_size st;
     heap_sz := heap_sz st; heap_sem := heap_sem st |}.

Definition set_max_heap_size (st : libc_state) (v : Z) : libc_state :=
  {| heap_base := heap_base st; max_heap_size := v;
     heap_sz := heap_sz st; heap_sem := heap_sem st |}.

(** The [CONFIG_MMU] part of [malloc_prepare] (lines 93-103).  The [int]
    constant is converted to [size_t] for the comparison with the free
    memory.  [None]: assertions are compiled in ([CONFIG_ASSERT]) and the
    [__ASSERT] fails. *)
Definition map_heap (t : target) (k : kernel) (st : libc_state)
  : option libc_state :=
  let st :=
    set_max_heap_size st
      (MIN (to_unsigned (ptr_bits (model t))
              (CONFIG_PICOLIBC_LIBC_MAX_MAPPED_REGION_SIZE k))
           (k_mem_free_get k)) in
  if negb (max_heap_size st =? 0) then
    let st := set_heap_base st (k_mem_map k (max_heap_size st)) in
    if CONFIG_ASSERT k && (heap_base st =? 0) then None else Some st
  else Some st.

(** [static int malloc_prepare(const struct device *unused)]: the value
    returned, the state and [z_malloc_partition]. *)
Definition malloc_prepare (t : target) (k : kernel) (st : libc_state)
    (z_malloc_partition : k_mem_partition)
  : option (Z * libc_state * k_mem_partition) :=
  match
    match config t with
    | HEAP_MMU => map_heap t k st
    | _ => Some st
    end
  with
  | None => None
  | Some st =>
      let z_malloc_partition :=
        if Z_MALLOC_PARTITION_EXISTS k
        then Partition (heap_base st) (max_heap_size st)
                       (K_MEM_PARTITION_P_RW_U_RW k)
        else z_malloc_partition in
      Some (0, st, z_malloc_partition)
  end.

End Prepare.

(** ** [_read] and [_write] *)

Module Posix.

(** [int _read(int fd, char *buf, int nbytes)]. *)
Definition _read (fd : Z) (buf : list Byte.byte) (nbytes : Z)
    (input : list Byte.byte) : option (Z * list Byte.byte * list Byte.byte) :=
  Console.z_impl_zephyr_read_stdin buf nbytes input.

(** [int _write(int fd, const void *buf, int nbytes)]. *)
Definition _write (fd : Z) (buf : list Byte.byte) (nbytes : Z)
    (output : list Byte.byte) : option (Z * list Byte.byte) :=
  Console.z_impl_zephyr_write_stdout buf nbytes output.

(** Number of newline bytes in a list. *)
Definition newlines (l : list Byte.byte) : nat :=
  length (filter (fun b => Byte.eqb b Console.NL) l).

(** Index of the first byte of [l] that ends a line, if any. *)
Fixpoint first_eol (l : list Byte.byte) : option nat :=
  match l with
  | [] => None
  | b :: rest =>
      if Console.is_eol b then Some 0%nat
      else match first_eol rest with
           | Some k => Some (S k)
           | None => None
           end
  end.

End Posix.


(** ** Targets and states of the examples *)

(** A 32-bit microcontroller whose heap is the SRAM left after [_end]. *)
Definition cortex_m : target := Target ILP32 HEAP_SRAM.

(** A 64-bit target with [CONFIG_PICOLIBC_ALIGNED_HEAP_SIZE]. *)
Definition rv64_aligned : target := Target LP64 HEAP_ALIGNED.

(** A heap of 100 bytes at 0x20000000 with the given mark, semaphore free. *)
Definition heap100 (mark : Z) : libc_state := LibcState 536870912 100 mark 1.

(** A heap of 128 bytes at 0x20000000, a size
    [CONFIG_PICOLIBC_ALIGNED_HEAP_SIZE] can have (the array of lines 42-43 is
    aligned to its size, a power of two), with the given mark, semaphore
    free. *)
Definition heap128 (mark : Z) : libc_state := LibcState 536870912 128 mark 1.

(** * Properties *)

(** ** Integer conversions *)

Lemma to_unsigned_small bits z :
  0 <= z < 2 ^ bits -> to_unsigned bits z = z.
Proof. intros H. unfold to_unsigned. apply Z.mod_small. exact H. Qed.

Lemma to_unsigned_32 z : to_unsigned 32 z = z mod 4294967296.
Proof. reflexivity. Qed.

Lemma to_unsigned_64 z : to_unsigned 64 z = z mod 18446744073709551616.
Proof. reflexivity. Qed.

Lemma to_signed_64 z :
  to_signed 64 z =
  (z + 9223372036854775808) mod 18446744073709551616 - 9223372036854775808.
Proof. reflexivity. Qed.

Lemma pow2_ptr_ILP32 : 2 ^ ptr_bits ILP32 = 4294967296.
Proof. reflexivity. Qed.

Lemma pow2_ptr_LP64 : 2 ^ ptr_bits LP64 = 18446744073709551616.
Proof. reflexivity. Qed.

Lemma INTPTR_MIN_ILP32 : INTPTR_MIN ILP32 = -2147483648.
Proof. reflexivity. Qed.

Lemma INTPTR_MIN_LP64 : INTPTR_MIN LP64 = -9223372036854775808.
Proof. reflexivity. Qed.

Lemma COUNT_MAX_ILP32 : COUNT_MAX ILP32 = 2147483647.
Proof. reflexivity. Qed.

Lemma COUNT_MAX_LP64 : COUNT_MAX LP64 = 9223372034707292160.
Proof. reflexivity. Qed.

Lemma INT_MAX_eq : INT_MAX = 2147483647.
Proof. reflexivity. Qed.

Lemma UINT_BITS_eq : UINT_BITS = 32.
Proof. reflexivity. Qed.

Create Rewrite HintDb cint.

#[local] Hint Rewrite to_unsigned_32 to_unsigned_64 to_signed_64
  pow2_ptr_ILP32 pow2_ptr_LP64 INTPTR_MIN_ILP32 INTPTR_MIN_LP64
  COUNT_MAX_ILP32 COUNT_MAX_LP64 INT_MAX_eq UINT_BITS_eq : cint.

(** Unfold the arithmetic of [_sbrk] on a fixed target down to [mod] by
    constants, then hand over to linear arithmetic. *)
Ltac cint_norm :=
  unfold sbrk_test, heap_fits, heap_sum, heap_sz_add, ptr_add, SBRK_FAILED,
    region_ok, heap_inv, count_ok, unsigned_compare, max_is_int in *;
  cbn [model config heap_base max_heap_size heap_sz heap_sem negb] in *;
  autorewrite with cint in *.

Ltac cint_solve :=
  cint_norm;
  repeat match goal with
         | |- context [?a <? ?b] => destruct (Z.ltb_spec a b)
         | H : context [?a <? ?b] |- _ => destruct (Z.ltb_spec a b)
         end;
  try discriminate; try reflexivity;
  Z.div_mod_to_equations; lia.

Ltac each_target t :=
  destruct t as [[|] [| |]].

(** ** The body of [_sbrk] between the take and the give *)

(** With the semaphore free, [_sbrk] returns, the semaphore is free again,
    and the rest of the state is decided by the test alone. *)
Lemma sbrk_free t count st :
  heap_sem st = 1 ->
  _sbrk t count st =
  Some (if sbrk_test t st count
        then (ptr_add t (heap_base st) (heap_sz st),
              set_heap_sz st (heap_sz_add (heap_sz st) count))
        else (SBRK_FAILED t, st)).
Proof.
  intros Hsem. destruct st as [b m sz sem]; cbn in Hsem; subst sem.
  unfold _sbrk. cbn [heap_sem Sem.sys_sem_take Z.ltb Z.compare].
  change (sbrk_test t (set_heap_sem (LibcState b m sz 1) (1 - 1)) count)
    with (sbrk_test t (LibcState b m sz 1) count).
  destruct (sbrk_test t (LibcState b m sz 1) count); reflexivity.
Qed.

(** The pointer to the mark is the plain sum. *)
Lemma ptr_add_exact t st :
  region_ok t st -> heap_inv st ->
  ptr_add t (heap_base st) (heap_sz st) = heap_base st + heap_sz st.
Proof.
  intros Hr Hi. destruct st as [b m sz sem].
  each_target t; cint_solve.
Qed.

(** A sum inside the region passes the test, on every target. *)
Lemma sbrk_test_inside t st count :
  region_ok t st -> heap_inv st ->
  0 <= heap_sz st + count < max_heap_size st ->
  sbrk_test t st count = true.
Proof.
  intros Hr Hi Hs. destruct st as [b m sz sem].
  each_target t; cint_solve.
Qed.

(** A sum that lands on the capacity or beyond fails the test, on every
    target. *)
Lemma sbrk_test_beyond t st count :
  region_ok t st -> heap_inv st -> count_ok t count ->
  max_heap_size st <= heap_sz st + count ->
  sbrk_test t st count = false.
Proof.
  intros Hr Hi Hc Hs. destruct st as [b m sz sem].
  each_target t; cint_solve.
Qed.

(** Where the comparison is unsigned, the test passes exactly when the sum
    lies inside the region. *)
Lemma sbrk_test_unsigned t st count :
  unsigned_compare t = true ->
  region_ok t st -> heap_inv st -> count_ok t count ->
  sbrk_test t st count = true ->
  0 <= heap_sz st + count < max_heap_size st.
Proof.
  intros Hu Hr Hi Hc Ht. destruct st as [b m sz sem].
  each_target t; try discriminate Hu; cint_solve.
Qed.

(** On every target, a passed test bounds the sum from above. *)
Lemma sbrk_test_upper t st count :
  region_ok t st -> heap_inv st -> count_ok t count ->
  sbrk_test t st count = true ->
  heap_sz st + count < max_heap_size st.
Proof.
  intros Hr Hi Hc Ht. destruct st as [b m sz sem].
  each_target t; cint_solve.
Qed.

Lemma heap_sz_add_exact sz count :
  0 <= sz + count < 2 ^ 32 -> heap_sz_add sz count = sz + count.
Proof. intros H. unfold heap_sz_add. apply to_unsigned_small. exact H. Qed.

(** The value returned tells the two branches apart. *)
Lemma sbrk_ptr_not_failed t st :
  region_ok t st -> heap_inv st ->
  ptr_add t (heap_base st) (heap_sz st) <> SBRK_FAILED t.
Proof.
  intros Hr Hi. destruct st as [b m sz sem].
  each_target t; cint_solve.
Qed.

(** What a call does to a state between calls, by the outcome of the test. *)
Lemma sbrk_ok_cases t count st ret st' :
  heap_ok t st ->
  _sbrk t count st = Some (ret, st') ->
  (sbrk_test t st count = true /\
   ret = heap_base st + heap_sz st /\ ret <> SBRK_FAILED t /\
   st' = set_heap_sz st (heap_sz_add (heap_sz st) count))
  \/
  (sbrk_test t st count = false /\ ret = SBRK_FAILED t /\ st' = st).
Proof.
  intros (Hr & Hi & Hsem) E. rewrite (sbrk_free t count st Hsem) in E.
  destruct (sbrk_test t st count); inversion E; subst; clear E.
  - left. rewrite <- (ptr_add_exact t st Hr Hi).
    repeat split. apply sbrk_ptr_not_failed; assumption.
  - right. repeat split.
Qed.

(** Neither branch writes [heap_base], [max_heap_size] or, once the call is
    over, the semaphore. *)
Lemma sbrk_frame t count st ret st' :
  heap_sem st = 1 ->
  _sbrk t count st = Some (ret, st') ->
  heap_base st' = heap_base st /\
  max_heap_size st' = max_heap_size st /\
  heap_sem st' = 1.
Proof.
  intros Hsem E. rewrite (sbrk_free t count st Hsem) in E.
  destruct (sbrk_test t st count); inversion E; subst; clear E;
    cbn; repeat split; assumption.
Qed.

(** Where the comparison is unsigned, a call keeps the state well formed and,
    when it succeeds, leaves the mark below the capacity. *)
Lemma sbrk_keeps_heap_ok t count st ret st' :
  unsigned_compare t = true ->
  heap_ok t st -> count_ok t count ->
  _sbrk t count st = Some (ret, st') ->
  heap_ok t st' /\ (ret <> SBRK_FAILED t -> heap_sz st' < max_heap_size st').
Proof.
  intros Hu Hok Hc E.
  destruct (sbrk_ok_cases t count st ret st' Hok E)
    as [(Ht & _ & _ & ->) | (_ & Hret & ->)].
  - destruct Hok as (Hr & Hi & Hsem).
    pose proof (sbrk_test_unsigned t st count Hu Hr Hi Hc Ht) as Hs.
    assert (Hadd : heap_sz_add (heap_sz st) count = heap_sz st + count).
    { apply heap_sz_add_exact. unfold region_ok in Hr. rewrite INT_MAX_eq in Hr.
      change (2 ^ 32) with 4294967296. lia. }
    unfold heap_ok, region_ok, heap_inv in *. cbn. rewrite Hadd.
    repeat split; try tauto; lia.
  - split; [exact Hok | intros H; contradiction].
Qed.


(** ** The boundary of the test *)

Lemma uint_range_of_region t st :
  region_ok t st -> forall z, 0 <= z <= max_heap_size st -> 0 <= z < 2 ^ 32.
Proof.
  intros Hr z Hz. unfold region_ok in Hr. rewrite INT_MAX_eq in Hr.
  change (2 ^ 32) with 4294967296. lia.
Qed.

(** A request that would put the mark on the capacity fails. *)
Lemma sbrk_exact_fit_fails t st d :
  heap_ok t st ->
  heap_sz st + d = max_heap_size st ->
  _sbrk t d st = Some (SBRK_FAILED t, st).
Proof.
  intros (Hr & Hi & Hsem) Hd. rewrite (sbrk_free t d st Hsem).
  replace (sbrk_test t st d) with false; [reflexivity|].
  symmetry. clear Hsem. destruct st as [b m sz sem].
  each_target t; cint_solve.
Qed.

(** A request that keeps the mark inside the region succeeds. *)
Lemma sbrk_inside_succeeds t st d :
  heap_ok t st ->
  0 <= heap_sz st + d < max_heap_size st ->
  _sbrk t d st =
  Some (heap_base st + heap_sz st, set_heap_sz st (heap_sz st + d)).
Proof.
  intros (Hr & Hi & Hsem) Hd. rewrite (sbrk_free t d st Hsem).
  rewrite (sbrk_test_inside t st d Hr Hi Hd).
  rewrite (ptr_add_exact t st Hr Hi).
  rewrite heap_sz_add_exact; [reflexivity|].
  apply (uint_range_of_region t st Hr). lia.
Qed.

Lemma sbrk_zero t st :
  heap_ok t st ->
  heap_sz st < max_heap_size st ->
  _sbrk t 0 st = Some (heap_base st + heap_sz st, st).
Proof.
  intros Hok Hlt. assert (Hi : heap_inv st) by apply Hok.
  rewrite (sbrk_inside_succeeds t st 0 Hok) by (unfold heap_inv in Hi; lia).
  rewrite Z.add_0_r. destruct st; reflexivity.
Qed.

(** C1 (as amended): the check is strict.  On every target and in every
    well-formed state, a request with [mark + delta = capacity] fails and
    leaves the state as it was, and a request with
    [0 <= mark + delta < capacity] succeeds, returns [base + mark] and moves
    the mark to [mark + delta]; with capacity 100 and mark 60, [grow(40)]
    fails and [grow(39)] succeeds leaving the mark at 99. *)
Theorem C1_strict_boundary t st delta :
  heap_ok t st ->
  (heap_sz st + delta = max_heap_size st ->
   _sbrk t delta st = Some (SBRK_FAILED t, st)) /\
  (0 <= heap_sz st + delta < max_heap_size st ->
   _sbrk t delta st =
   Some (heap_base st + heap_sz st, set_heap_sz st (heap_sz st + delta))) /\
  (max_heap_size st = 100 -> heap_sz st = 60 ->
   _sbrk t 40 st = Some (SBRK_FAILED t, st) /\
   _sbrk t 39 st = Some (heap_base st + 60, set_heap_sz st 99)).
Proof.
  intros Hok.
  split; [apply sbrk_exact_fit_fails; exact Hok|].
  split; [apply sbrk_inside_succeeds; exact Hok|].
  intros Hm Hsz. split.
  - apply sbrk_exact_fit_fails; [exact Hok | lia].
  - rewrite (sbrk_inside_succeeds t st 39 Hok) by lia.
    rewrite Hsz. reflexivity.
Qed.

(** Side conditions on concrete targets, states and arguments, settled by
    evaluation. *)
Ltac concrete :=
  unfold heap_ok, region_ok, heap_inv, count_ok, INT_MAX;
  cbn; repeat split; lia.

(** The scenario of the specification on a 32-bit target. *)
Lemma C1_strict_boundary_witness :
  heap_ok cortex_m (heap100 60) /\
  _sbrk cortex_m 40 (heap100 60) = Some (4294967295, heap100 60) /\
  _sbrk cortex_m 39 (heap100 60) = Some (536870912 + 60, heap100 99).
Proof.
  assert (H : heap_ok cortex_m (heap100 60)) by concrete.
  split; [exact H|].
  exact (proj2 (proj2 (C1_strict_boundary cortex_m (heap100 60) 40 H))
           eq_refl eq_refl).
Defined.

(** The claim as written fails below zero: with mark 10 and capacity 100,
    [10 + (-20) < 100], yet the sum wraps to 4294967286 in the unsigned
    comparison and the call fails. *)
Lemma C1_counterexample :
  heap_ok cortex_m (heap100 10) /\
  count_ok cortex_m (-20) /\
  heap_sz (heap100 10) + (-20) < max_heap_size (heap100 10) /\
  _sbrk cortex_m (-20) (heap100 10) = Some (SBRK_FAILED cortex_m, heap100 10).
Proof.
  split; [concrete|]. split; [concrete|].
  split; [cbn; lia | reflexivity].
Qed.

(** ** A successful call *)

(** A call that does not return [(void * )-1] returns [base + mark] for the
    mark it found and stores [mark + delta] into the 32 bits of [heap_sz];
    where the comparison is unsigned, and whenever the sum is not negative,
    the new mark is [mark + delta] itself. *)
Lemma sbrk_success_result t st delta ret st' :
  heap_ok t st -> count_ok t delta ->
  _sbrk t delta st = Some (ret, st') ->
  ret <> SBRK_FAILED t ->
  ret = heap_base st + heap_sz st /\
  st' = set_heap_sz st (to_unsigned 32 (heap_sz st + delta)) /\
  (0 <= heap_sz st + delta -> heap_sz st' = heap_sz st + delta) /\
  (unsigned_compare t = true -> heap_sz st' = heap_sz st + delta).
Proof.
  intros Hok Hc E Hret.
  destruct (sbrk_ok_cases t delta st ret st' Hok E)
    as [(Ht & Hr & _ & ->) | (_ & Hr & _)]; [|contradiction].
  destruct Hok as (Hreg & Hi & Hsem).
  pose proof (sbrk_test_upper t st delta Hreg Hi Hc Ht) as Hup.
  assert (Hpos : 0 <= heap_sz st + delta ->
                 heap_sz_add (heap_sz st) delta = heap_sz st + delta).
  { intros H. apply heap_sz_add_exact. unfold region_ok in Hreg.
    rewrite INT_MAX_eq in Hreg. change (2 ^ 32) with 4294967296. lia. }
  repeat split; try assumption.
  - intros Hu. cbn. apply Hpos.
    apply (sbrk_test_unsigned t st delta Hu Hreg Hi Hc Ht).
Qed.

(** C2, the code at the failing input: on a 64-bit target with
    [CONFIG_PICOLIBC_ALIGNED_HEAP_SIZE] set to 128, [_sbrk(-1)] on a fresh
    heap computes the [long] sum [-1], passes the signed test [-1 < 128] and
    returns the base, a successful call; [heap_sz += count] then leaves
    [heap_sz = 4294967295], which is not the old mark plus [delta]. *)
Theorem C2_underflow_stores_wrapped :
  heap_ok rv64_aligned (boot_state 536870912 128) /\
  count_ok rv64_aligned (-1) /\
  sbrk_test rv64_aligned (boot_state 536870912 128) (-1) = true /\
  _sbrk rv64_aligned (-1) (boot_state 536870912 128) =
  Some (536870912, heap128 4294967295) /\
  536870912 = heap_base (boot_state 536870912 128) +
              heap_sz (boot_state 536870912 128) /\
  536870912 <> SBRK_FAILED rv64_aligned /\
  heap_sz (heap128 4294967295) <>
  heap_sz (boot_state 536870912 128) + (-1).
Proof.
  split; [concrete|]. split; [concrete|].
  split; [reflexivity|]. split; [reflexivity|]. split; [reflexivity|].
  split; [cbv; discriminate | cbn; lia].
Qed.

(** ** A failed call *)

(** C3: the failure value [(void * )-1] is the pointer with all bits set; a
    request for more than the region holds returns it; a call that returns
    it leaves the whole state, the mark included, as it was; and [grow(0)]
    gives the same address right before and right after a failed call. *)
Theorem C3_failure_atomic t st delta :
  heap_ok t st -> count_ok t delta ->
  SBRK_FAILED t = Z.ones (ptr_bits (model t)) /\
  (max_heap_size st <= heap_sz st + delta ->
   _sbrk t delta st = Some (SBRK_FAILED t, st)) /\
  (forall ret st', _sbrk t delta st = Some (ret, st') ->
                   ret = SBRK_FAILED t -> st' = st) /\
  (heap_sz st < max_heap_size st ->
   _sbrk t delta st = Some (SBRK_FAILED t, st) ->
   sbrk_calls t [0; delta; 0] st =
   Some ([(0, heap_base st + heap_sz st); (delta, SBRK_FAILED t);
          (0, heap_base st + heap_sz st)], st)).
Proof.
  intros Hok Hc.
  assert (Hok' := Hok). destruct Hok' as (Hr & Hi & Hsem).
  split; [destruct t as [[|] c]; reflexivity|]. split; [|split].
  - intros Hbig. rewrite (sbrk_free t delta st Hsem).
    rewrite (sbrk_test_beyond t st delta Hr Hi Hc Hbig). reflexivity.
  - intros ret st' E Hret.
    destruct (sbrk_ok_cases t delta st ret st' Hok E)
      as [(_ & _ & Hne & _) | (_ & _ & ->)]; [contradiction | reflexivity].
  - intros Hlt Hfail.
    assert (Hzero : _sbrk t 0 st = Some (heap_base st + heap_sz st, st))
      by (apply sbrk_zero; assumption).
    cbn [sbrk_calls]. rewrite Hzero, Hfail, Hzero. reflexivity.
Qed.

Lemma C3_failure_atomic_witness :
  _sbrk cortex_m 40 (heap100 60) = Some (SBRK_FAILED cortex_m, heap100 60) /\
  sbrk_calls cortex_m [0; 40; 0] (heap100 60) =
  Some ([(0, 536870972); (40, 4294967295); (0, 536870972)], heap100 60).
Proof.
  assert (Hok : heap_ok cortex_m (heap100 60)) by concrete.
  assert (Hc : count_ok cortex_m 40) by concrete.
  destruct (C3_failure_atomic cortex_m (heap100 60) 40 Hok Hc)
    as (_ & Hfail & _ & Hseq).
  assert (E : _sbrk cortex_m 40 (heap100 60) =
              Some (SBRK_FAILED cortex_m, heap100 60)).
  { apply Hfail. cbn. lia. }
  split; [exact E|].
  apply Hseq; [cbn; lia | exact E].
Defined.

(** ** [grow(0)] *)

(** C6: with the mark below the capacity [grow(0)] returns [base + mark] and
    changes nothing; with the mark on the capacity it fails, the test being
    strict. *)
Theorem C6_grow_zero t st :
  heap_ok t st ->
  (heap_sz st < max_heap_size st ->
   _sbrk t 0 st = Some (heap_base st + heap_sz st, st)) /\
  (heap_sz st = max_heap_size st ->
   _sbrk t 0 st = Some (SBRK_FAILED t, st)).
Proof.
  intros Hok. split.
  - apply sbrk_zero. exact Hok.
  - intros Heq. apply sbrk_exact_fit_fails; [exact Hok | lia].
Qed.

Lemma C6_grow_zero_witness :
  _sbrk cortex_m 0 (heap100 60) = Some (536870912 + 60, heap100 60) /\
  _sbrk cortex_m 0 (heap100 100) = Some (4294967295, heap100 100).
Proof.
  split.
  - apply (proj1 (C6_grow_zero cortex_m (heap100 60) ltac:(concrete))).
    cbn. lia.
  - apply (proj2 (C6_grow_zero cortex_m (heap100 100) ltac:(concrete))).
    reflexivity.
Defined.

(** ** Direction of the mark *)




(** ** The invariant *)

(** C4, the code at the failing input: on a 64-bit target with
    [CONFIG_PICOLIBC_ALIGNED_HEAP_SIZE] set to 128, [_sbrk(-1)] on a fresh
    heap computes the [long] sum [-1], passes the signed test [-1 < 128],
    returns the base and leaves [heap_sz = 4294967295], above the capacity. *)
Theorem C4_underflow_accepted :
  heap_ok rv64_aligned (boot_state 536870912 128) /\
  count_ok rv64_aligned (-1) /\
  sbrk_test rv64_aligned (boot_state 536870912 128) (-1) = true /\
  _sbrk rv64_aligned (-1) (boot_state 536870912 128) =
  Some (536870912, heap128 4294967295) /\
  ~ heap_inv (heap128 4294967295).
Proof.
  split; [concrete|]. split; [concrete|].
  split; [reflexivity|].
  split; [reflexivity|].
  unfold heap_inv. cbn. lia.
Qed.

(** ** Below the capacity *)

(** C9, the code at the failing input: on the same target, one call with
    argument [128 - 2^32] on a fresh heap of 128 bytes passes the signed
    test, returns the base, and leaves the mark on the capacity; one call
    with argument [-1] leaves it far above. *)
Theorem C9_capacity_reached :
  count_ok rv64_aligned (-4294967168) /\
  sbrk_calls rv64_aligned [-4294967168] (boot_state 536870912 128) =
  Some ([(-4294967168, 536870912)], heap128 128) /\
  granted rv64_aligned [(-4294967168, 536870912)] =
  [(-4294967168, 536870912)] /\
  heap_sz (heap128 128) = max_heap_size (heap128 128) /\
  sbrk_calls rv64_aligned [-1] (boot_state 536870912 128) =
  Some ([(-1, 536870912)], heap128 4294967295) /\
  max_heap_size (heap128 4294967295) <= heap_sz (heap128 4294967295).
Proof.
  split; [concrete|].
  repeat split; try reflexivity. cbn. lia.
Qed.

(** Where the comparison is unsigned the mark stays below a positive
    capacity, whatever the arguments. *)
Lemma sbrk_calls_below_capacity t counts :
  unsigned_compare t = true ->
  forall st,
    heap_ok t st -> heap_sz st < max_heap_size st ->
    Forall (count_ok t) counts ->
    exists log st',
      sbrk_calls t counts st = Some (log, st') /\
      heap_ok t st' /\ heap_sz st' < max_heap_size st'.
Proof.
  intros Hu. induction counts as [|c cs IH]; intros st Hok Hlt Hcs.
  - exists [], st. split; [reflexivity | split; assumption].
  - inversion Hcs as [|? ? Hc Hcs']; subst.
    assert (Hsem : heap_sem st = 1) by apply Hok.
    destruct (_sbrk t c st) as [[ret st1]|] eqn:E;
      [|rewrite (sbrk_free t c st Hsem) in E; discriminate E].
    destruct (sbrk_keeps_heap_ok t c st ret st1 Hu Hok Hc E) as (Hok1 & Hok2).
    assert (Hlt1 : heap_sz st1 < max_heap_size st1).
    { destruct (sbrk_ok_cases t c st ret st1 Hok E)
        as [(_ & _ & Hne & _) | (_ & _ & ->)]; [apply Hok2, Hne | exact Hlt]. }
    destruct (IH st1 Hok1 Hlt1 Hcs') as (log & st' & E' & Hok' & Hlt').
    exists ((c, ret) :: log), st'. cbn [sbrk_calls]. rewrite E, E'.
    split; [reflexivity | split; assumption].
Qed.

(** ** Serial callers *)






(** ** The semaphore around the critical section *)

Import Conc.

Lemma holders_cons th ths :
  holders (th :: ths) = holding th + holders ths.
Proof.
  unfold holders, holding. cbn [filter].
  destruct (holds_lock (at_pc th)); cbn [length]; lia.
Qed.

Lemma holders_nonneg ths : 0 <= holders ths.
Proof. unfold holders. lia. Qed.

Lemma holding_range th : 0 <= holding th <= 1.
Proof. unfold holding. destruct (holds_lock (at_pc th)); lia. Qed.

Lemma holders_replace_nth ths :
  forall i th th',
    nth_error ths i = Some th ->
    holders (replace_nth i th' ths) = holders ths - holding th + holding th'.
Proof.
  induction ths as [|x rest IH]; intros i th th' Hnth.
  - destruct i; discriminate Hnth.
  - destruct i as [|j]; cbn in Hnth |- *.
    + inversion Hnth; subst. rewrite !holders_cons. lia.
    + rewrite !holders_cons. rewrite (IH j th th' Hnth). lia.
Qed.

Lemma holders_ge ths :
  forall i th, nth_error ths i = Some th -> holding th <= holders ths.
Proof.
  induction ths as [|x rest IH]; intros i th Hnth.
  - destruct i; discriminate Hnth.
  - rewrite holders_cons. destruct i as [|j]; cbn in Hnth.
    + inversion Hnth; subst. pose proof (holders_nonneg rest). lia.
    + pose proof (IH j th Hnth). pose proof (holding_range x). lia.
Qed.

Lemma nth_error_replace_nth ths :
  forall i th th',
    nth_error ths i = Some th ->
    nth_error (replace_nth i th' ths) i = Some th'.
Proof.
  induction ths as [|x rest IH]; intros i th th' Hnth.
  - destruct i; discriminate Hnth.
  - destruct i as [|j]; cbn in Hnth |- *; [reflexivity | eauto].
Qed.

Lemma holders_start counts st : holders (threads (start counts st)) = 0.
Proof.
  unfold start. cbn [threads]. induction counts as [|c cs IH];
    [reflexivity | cbn [map]; rewrite holders_cons, IH; reflexivity].
Qed.

(** What one statement does to the semaphore and to the program point. *)
Lemma step_thread_lock t th st th' st' :
  step_thread t th st = Some (th', st') ->
  (at_pc th = AtTake /\ 0 < heap_sem st /\
   heap_sem st' = heap_sem st - 1 /\ holding th = 0 /\ holding th' = 1 /\
   heap_sz st' = heap_sz st)
  \/
  (exists ret, at_pc th = AtGive ret /\ at_pc th' = Returned ret /\
   heap_sem st' = Sem.sys_sem_give (heap_sem st) /\
   holding th = 1 /\ holding th' = 0 /\ heap_sz st' = heap_sz st)
  \/
  (holding th = 1 /\ holding th' = 1 /\ heap_sem st' = heap_sem st /\
   has_returned (at_pc th') = false).
Proof.
  unfold step_thread, holding. destruct th as [a p]. cbn [at_pc Conc.arg].
  destruct p; intros E.
  - left. unfold Sem.sys_sem_take in E.
    destruct (Z.ltb_spec 0 (heap_sem st)); [|discriminate E].
    inversion E; subst. cbn. repeat split; lia.
  - right; right. inversion E; subst. cbn. repeat split.
  - right; right. inversion E; subst. cbn.
    destruct (sbrk_test t st' a); repeat split.
  - right; right. inversion E; subst. cbn. repeat split.
  - right; right. inversion E; subst. cbn. repeat split.
  - right; left. exists ret. inversion E; subst. cbn. repeat split.
  - discriminate E.
Qed.

(** Only the statement [heap_sz += count] writes the mark. *)
Lemma step_thread_writes t th st th' st' :
  step_thread t th st = Some (th', st') ->
  heap_sz st' <> heap_sz st ->
  exists ptr, at_pc th = AtAdd ptr.
Proof.
  unfold step_thread. destruct th as [a p]. cbn [at_pc Conc.arg].
  destruct p; intros E Hne; try (inversion E; subst; cbn in Hne; congruence).
  - unfold Sem.sys_sem_take in E.
    destruct (0 <? heap_sem st); inversion E; subst. cbn in Hne. congruence.
  - exists ptr. reflexivity.
Qed.

Lemma lock_inv_step t i s s' :
  lock_inv s -> sys_step t i s s' -> lock_inv s'.
Proof.
  intros (Hpos & Hsum) Hstep. destruct Hstep as [s th th' st' Hnth E].
  unfold lock_inv. cbn [shared threads].
  rewrite (holders_replace_nth (threads s) i th th' Hnth).
  pose proof (holders_ge (threads s) i th Hnth) as Hge.
  destruct (step_thread_lock t th (shared s) th' st' E)
    as [(_ & Hs & -> & -> & -> & _) |
        [(ret & _ & _ & -> & Hh & -> & _) | (-> & -> & -> & _)]];
    try lia.
  assert (Hz : heap_sem (shared s) = 0) by lia.
  rewrite Hz. change (Sem.sys_sem_give 0) with 1. lia.
Qed.

Lemma lock_inv_reachable t counts st s :
  heap_sem st = 1 ->
  reachable t (start counts st) s -> lock_inv s.
Proof.
  intros Hsem Hr. induction Hr as [|s s' i _ IH Hstep].
  - unfold lock_inv. rewrite holders_start. cbn [start shared]. lia.
  - exact (lock_inv_step t i s s' IH Hstep).
Qed.

Lemma sys_move_step t i s s' :
  sys_move t i s = Some s' -> sys_step t i s s'.
Proof.
  unfold sys_move. intros E.
  destruct (nth_error (threads s) i) as [th|] eqn:Hnth; [|discriminate E].
  destruct (step_thread t th (shared s)) as [[th' st']|] eqn:Hst;
    [|discriminate E].
  inversion E; subst. econstructor; eassumption.
Qed.

Lemma schedule_reachable t s0 order :
  forall s s',
    reachable t s0 s -> schedule t order s = Some s' -> reachable t s0 s'.
Proof.
  induction order as [|i rest IH]; intros s s' Hr E; cbn in E.
  - inversion E; subst. exact Hr.
  - destruct (sys_move t i s) as [s1|] eqn:Hm; [|discriminate E].
    apply (IH s1 s'); [|exact E].
    eapply Reach_step; [exact Hr | apply sys_move_step; exact Hm].
Qed.

(** A context that has not returned and does not hold the lock stands before
    the take. *)
Lemma outside_is_at_take th :
  has_returned (at_pc th) = false -> holding th = 0 -> at_pc th = AtTake.
Proof.
  unfold holding. destruct (at_pc th); cbn; intros H1 H2;
    try reflexivity; try discriminate; lia.
Qed.

Lemma holder_exists ths :
  0 < holders ths ->
  exists i th, nth_error ths i = Some th /\ holding th = 1.
Proof.
  induction ths as [|x rest IH]; intros H.
  - cbn in H. lia.
  - rewrite holders_cons in H. pose proof (holding_range x).
    destruct (Z.eq_dec (holding x) 1) as [Hx|Hx].
    + exists 0%nat, x. split; [reflexivity | exact Hx].
    + destruct IH as (i & th & Hnth & Hth); [lia|].
      exists (S i), th. split; assumption.
Qed.

(** A context between the take and the give can always move. *)
Lemma holder_can_step t th st :
  holding th = 1 -> exists th' st', step_thread t th st = Some (th', st').
Proof.
  unfold holding, step_thread. destruct th as [a p]. cbn [at_pc Conc.arg].
  destruct p; cbn; intros H; try lia; eauto.
Qed.

Lemma holding_not_returned th :
  holding th = 1 -> has_returned (at_pc th) = false.
Proof.
  unfold holding. destruct (at_pc th); cbn; intros H; try reflexivity; lia.
Qed.

Lemma holding_holds_lock th : holding th = 1 -> holds_lock (at_pc th) = true.
Proof.
  unfold holding. destruct (holds_lock (at_pc th)); [reflexivity | lia].
Qed.

(** A context alone goes through the statements of [_sbrk] in five moves. *)
Lemma run_alone_sbrk t count st :
  heap_sem st = 1 ->
  exists ret st',
    _sbrk t count st = Some (ret, st') /\
    heap_sem st' = 1 /\
    run_alone 5 t (Thread count AtTake) st = (Thread count (Returned ret), st').
Proof.
  intros Hsem. destruct st as [b m sz sem]. cbn in Hsem. subst sem.
  unfold _sbrk, run_alone, step_thread.
  cbn [at_pc Conc.arg heap_sem Sem.sys_sem_take Z.ltb Z.compare].
  change (set_heap_sem (LibcState b m sz 1) (1 - 1)) with (LibcState b m sz 0).
  destruct (sbrk_test t (LibcState b m sz 0) count);
    eexists; eexists; (split; [reflexivity | split; reflexivity]).
Qed.

(** C8: in every state that contexts calling [_sbrk] can reach, whatever
    the interleaving, at most one context is between the take and the give
    and the semaphore counts 0 exactly then; a move that changes the mark is
    made by a context holding the semaphore, and a context about to read or
    write the mark is the one holder; a move that returns from
    [_sbrk], with a pointer or with the failure value, leaves the semaphore
    free; as long as some context has not returned some context can move;
    and a call made alone returns with the semaphore free, after the same
    statements. *)
Theorem C8_lock_discipline t counts st0 s :
  heap_sem st0 = 1 ->
  reachable t (start counts st0) s ->
  (0 <= holders (threads s) <= 1 /\
   heap_sem (shared s) = 1 - holders (threads s)) /\
  (forall i s',
      sys_step t i s s' ->
      heap_sz (shared s') <> heap_sz (shared s) ->
      heap_sem (shared s) = 0 /\
      exists th, nth_error (threads s) i = Some th /\
                 holds_lock (at_pc th) = true) /\
  (forall i th,
      nth_error (threads s) i = Some th ->
      touches_mark (at_pc th) = true ->
      heap_sem (shared s) = 0 /\ holders (threads s) = 1) /\
  (forall i s' th',
      sys_step t i s s' ->
      nth_error (threads s') i = Some th' ->
      has_returned (at_pc th') = true ->
      heap_sem (shared s') = 1) /\
  ((exists th, In th (threads s) /\ has_returned (at_pc th) = false) ->
   exists i s', sys_step t i s s') /\
  (forall count st,
      heap_sem st = 1 ->
      exists ret st',
        _sbrk t count st = Some (ret, st') /\
        heap_sem st' = 1 /\
        run_alone 5 t (Thread count AtTake) st =
        (Thread count (Returned ret), st')).
Proof.
  intros Hsem Hreach.
  pose proof (lock_inv_reachable t counts st0 s Hsem Hreach) as (Hpos & Hsum).
  pose proof (holders_nonneg (threads s)) as Hh0.
  split; [lia|]. split; [|split; [|split; [|split]]].
  - intros i s' Hstep Hne. destruct Hstep as [s th th' st' Hnth E].
    cbn [shared] in Hne.
    destruct (step_thread_writes t th (shared s) th' st' E Hne) as (ptr & Hpc).
    assert (Hth : holding th = 1) by (unfold holding; rewrite Hpc; reflexivity).
    pose proof (holders_ge (threads s) i th Hnth).
    split; [lia|]. exists th. split; [exact Hnth|].
    apply holding_holds_lock. exact Hth.
  - intros i th Hnth Htouch.
    pose proof (holders_ge (threads s) i th Hnth) as Hge.
    assert (Hth : holding th = 1).
    { unfold holding. destruct (at_pc th); cbn in Htouch |- *;
        try reflexivity; discriminate Htouch. }
    lia.
  - intros i s' th' Hstep Hnth' Hret. destruct Hstep as [s th th1 st' Hnth E].
    cbn [shared threads] in *.
    rewrite (nth_error_replace_nth (threads s) i th th1 Hnth) in Hnth'.
    inversion Hnth'; subst th1.
    pose proof (holders_ge (threads s) i th Hnth).
    destruct (step_thread_lock t th (shared s) th' st' E)
      as [(_ & _ & _ & _ & Hh' & _) |
          [(ret & _ & _ & -> & Hh & _) | (_ & _ & _ & Hnr)]].
    + rewrite (holding_not_returned th' Hh') in Hret. discriminate Hret.
    + assert (Hz : heap_sem (shared s) = 0) by lia.
      rewrite Hz. reflexivity.
    + rewrite Hnr in Hret. discriminate Hret.
  - intros (th & Hin & Hnr).
    destruct (Z.eq_dec (holders (threads s)) 0) as [Hnone|Hsome].
    + destruct (In_nth_error (threads s) th Hin) as (i & Hnth).
      pose proof (holders_ge (threads s) i th Hnth).
      pose proof (holding_range th).
      assert (Hpc : at_pc th = AtTake)
        by (apply outside_is_at_take; [exact Hnr | lia]).
      assert (Hone : heap_sem (shared s) = 1) by lia.
      exists i. eexists. apply (Sys_step t i s th (Thread (Conc.arg th) AtPtr)
                                  (set_heap_sem (shared s) (1 - 1)) Hnth).
      unfold step_thread. rewrite Hpc, Hone. reflexivity.
    + destruct (holder_exists (threads s)) as (i & h & Hnth & Hh); [lia|].
      destruct (holder_can_step t h (shared s) Hh) as (h' & st' & E).
      exists i. eexists. exact (Sys_step t i s h h' st' Hnth E).
  - intros count st. apply run_alone_sbrk.
Qed.

Lemma C8_lock_discipline_witness :
  schedule cortex_m [0; 0; 0; 0]%nat (start [200; 10] (heap100 0)) =
  Some (System (LibcState 536870912 100 0 0)
          [Thread 200 (AtGive 4294967295); Thread 10 AtTake]) /\
  heap_sem (LibcState 536870912 100 0 0) =
  1 - holders [Thread 200 (AtGive 4294967295); Thread 10 AtTake] /\
  exists i s',
    sys_step cortex_m i
      (System (LibcState 536870912 100 0 0)
         [Thread 200 (AtGive 4294967295); Thread 10 AtTake]) s'.
Proof.
  assert (E : schedule cortex_m [0; 0; 0; 0]%nat (start [200; 10] (heap100 0)) =
              Some (System (LibcState 536870912 100 0 0)
                      [Thread 200 (AtGive 4294967295); Thread 10 AtTake]))
    by reflexivity.
  split; [exact E|].
  destruct (C8_lock_discipline cortex_m [200; 10] (heap100 0) _ eq_refl
              (schedule_reachable cortex_m _ _ _ _
                 (Reach_start cortex_m _) E))
    as ((_ & Hsem) & _ & _ & _ & Hlive & _).
  split; [exact Hsem|].
  apply Hlive. exists (Thread 10 AtTake). split; [cbn; auto | reflexivity].
Defined.

(** ** Console output *)

Import Console.

Lemma skipn_nth_error {A} (l : list A) :
  forall i, (i < length l)%nat ->
            exists x, nth_error l i = Some x /\ skipn i l = x :: skipn (S i) l.
Proof.
  induction l as [|a l IH]; intros i Hi; cbn in Hi; [lia|].
  destruct i as [|i].
  - exists a. split; reflexivity.
  - destruct (IH i) as (x & Hx & Hs); [lia|].
    exists x. split; [exact Hx | exact Hs].
Qed.

(** The write loop emits the expansion of the bytes it goes over. *)
Lemma write_loop_emits n :
  forall i buf output,
    (i + n <= length buf)%nat ->
    write_loop n i buf output =
    Some (output ++ flat_map expand (firstn n (skipn i buf))).
Proof.
  induction n as [|n IH]; intros i buf output Hlen.
  - cbn. rewrite app_nil_r. reflexivity.
  - destruct (skipn_nth_error buf i) as (b & Hb & Hs); [lia|].
    cbn [write_loop]. rewrite Hb. rewrite IH by lia.
    rewrite Hs. cbn [firstn flat_map]. unfold expand at 2, putchar.
    destruct (Byte.eqb b NL) eqn:Hnl; rewrite <- ?app_assoc;
      [rewrite (Byte.byte_dec_bl b NL Hnl)|]; reflexivity.
Qed.

(** In an expansion every newline comes right after a carriage return. *)
Lemma expand_cr_before_nl l :
  forall k,
    nth_error (flat_map expand l) k = Some NL ->
    exists j, k = S j /\ nth_error (flat_map expand l) j = Some CR.
Proof.
  induction l as [|b l IH]; intros k Hk.
  - destruct k; discriminate Hk.
  - cbn [flat_map] in *. unfold expand at 1 in Hk. unfold expand at 1.
    destruct (Byte.eqb b NL) eqn:Hb.
    + destruct k as [|[|k]]; cbn in Hk |- *.
      * discriminate Hk.
      * exists 0%nat. split; reflexivity.
      * destruct (IH k Hk) as (j & -> & Hj).
        exists (S (S j)). split; [reflexivity | exact Hj].
    + destruct k as [|k]; cbn in Hk |- *.
      * inversion Hk; subst b. cbv in Hb. discriminate Hb.
      * destruct (IH k Hk) as (j & -> & Hj).
        exists (S j). split; [reflexivity | exact Hj].
Qed.

(** ** Console input *)

Lemma store_in_range buf :
  forall i c,
    (i < length buf)%nat ->
    exists buf',
      store buf i c = Some buf' /\
      length buf' = length buf /\
      nth_error buf' i = Some c /\
      (forall k, k <> i -> nth_error buf' k = nth_error buf k).
Proof.
  induction buf as [|b rest IH]; intros i c Hi; cbn in Hi; [lia|].
  destruct i as [|i].
  - exists (c :: rest). repeat split.
    intros k Hk. destruct k; [contradiction | reflexivity].
  - destruct (IH i c) as (rest' & E & Hlen & Hnth & Hoth); [lia|].
    exists (b :: rest'). cbn [store]. rewrite E. repeat split.
    + cbn. rewrite Hlen. reflexivity.
    + exact Hnth.
    + intros k Hk. destruct k; [reflexivity|]. cbn. apply Hoth. lia.
Qed.

Lemma getchar_incoming input :
  char_of_int (fst (getchar input)) = incoming input 0 /\
  snd (getchar input) = skipn 1 input /\
  (forall k, incoming (snd (getchar input)) k = incoming input (S k)).
Proof.
  unfold incoming. destruct input as [|b rest]; cbn [getchar fst snd map nth].
  - repeat split. intros k. destruct k; reflexivity.
  - repeat split.
Qed.

(** The read loop: where it stops and what it leaves behind. *)
Lemma read_loop_spec n :
  forall i buf input,
    (i + n <= length buf)%nat ->
    exists j buf' input',
      read_loop n i buf input = Some (j, buf', input') /\
      (i <= j <= i + n)%nat /\
      length buf' = length buf /\
      input' = skipn (j - i) input /\
      (forall k, (i <= k < j)%nat ->
                 nth_error buf' k = Some (incoming input (k - i))) /\
      (forall k, (k < i)%nat -> nth_error buf' k = nth_error buf k) /\
      (forall k, (i <= k)%nat -> (S k < j)%nat ->
                 is_eol (incoming input (k - i)) = false) /\
      ((j < i + n)%nat ->
       (i < j)%nat /\ is_eol (incoming input (j - 1 - i)) = true).
Proof.
  induction n as [|n IH]; intros i buf input Hlen.
  - exists i, buf, input. cbn [read_loop].
    split; [reflexivity|]. split; [lia|]. split; [reflexivity|].
    split; [rewrite Nat.sub_diag; reflexivity|].
    repeat split; intros; lia.
  - cbn [read_loop].
    destruct (getchar_incoming input) as (Hc & Hrest & Hshift).
    destruct (getchar input) as [c input1]. cbn [fst snd] in Hc, Hrest, Hshift.
    destruct (store_in_range buf i (char_of_int c)) as
        (buf1 & E1 & Hlen1 & Hnth1 & Hoth1); [lia|].
    rewrite E1, Hnth1. rewrite Hc in *.
    destruct (is_eol (incoming input 0)) eqn:Heol.
    + exists (S i), buf1, input1.
      split; [reflexivity|]. split; [lia|]. split; [exact Hlen1|].
      split; [replace (S i - i)%nat with 1%nat by lia; exact Hrest|].
      split; [|split; [|split]].
      * intros k Hk. replace k with i by lia.
        rewrite Nat.sub_diag. exact Hnth1.
      * intros k Hk. apply Hoth1. lia.
      * intros k Hk1 Hk2. lia.
      * intros _. split; [lia|].
        replace (S i - 1 - i)%nat with 0%nat by lia. exact Heol.
    + destruct (IH (S i) buf1 input1) as
          (j & buf' & input' & E & Hj & Hlen' & Hin' & Hfill & Hkeep & Hno & Hstop);
        [lia|].
      exists j, buf', input'.
      split; [exact E|]. split; [lia|]. split; [congruence|].
      split; [|split; [|split; [|split]]].
      * rewrite Hin', Hrest. rewrite skipn_skipn. f_equal. lia.
      * intros k Hk. destruct (Nat.eq_dec k i) as [->|Hne].
        -- rewrite Hkeep by lia. rewrite Nat.sub_diag. exact Hnth1.
        -- rewrite Hfill by lia. rewrite Hshift. do 2 f_equal. lia.
      * intros k Hk. rewrite Hkeep by lia. apply Hoth1. lia.
      * intros k Hk1 Hk2. destruct (Nat.eq_dec k i) as [->|Hne].
        -- rewrite Nat.sub_diag. exact Heol.
        -- replace (k - i)%nat with (S (k - S i)) by lia.
           rewrite <- Hshift. apply Hno; lia.
      * intros Hlt. destruct Hstop as (Hij & Hlast); [lia|].
        split; [lia|].
        replace (j - 1 - i)%nat with (S (j - 1 - S i)) by lia.
        rewrite <- Hshift. exact Hlast.
Qed.

(** C10: on a buffer of at least [nbytes >= 0] bytes,
    [z_impl_zephyr_write_stdout] returns [nbytes] and appends to the output
    the first [nbytes] bytes of the buffer with a carriage return put right
    before every newline; [z_impl_zephyr_read_stdin] returns a count [i]
    with [0 <= i <= nbytes], has stored the first [i] bytes of the input in
    the buffer, none of which but the last ends a line, and when
    [i < nbytes] the last one is a newline or a carriage return. *)
Theorem C10_console_io buf nbytes :
  0 <= nbytes <= Z.of_nat (length buf) ->
  (forall output,
      exists emitted,
        z_impl_zephyr_write_stdout buf nbytes output =
        Some (nbytes, output ++ emitted) /\
        emitted = flat_map expand (firstn (Z.to_nat nbytes) buf) /\
        (forall k, nth_error emitted k = Some NL ->
                   exists j, k = S j /\ nth_error emitted j = Some CR)) /\
  (forall input,
      exists i buf' input',
        z_impl_zephyr_read_stdin buf nbytes input = Some (i, buf', input') /\
        0 <= i <= nbytes /\
        input' = skipn (Z.to_nat i) input /\
        (forall k, (k < Z.to_nat i)%nat ->
                   nth_error buf' k = Some (incoming input k)) /\
        (forall k, (S k < Z.to_nat i)%nat ->
                   is_eol (incoming input k) = false) /\
        (i < nbytes ->
         0 < i /\ is_eol (incoming input (Z.to_nat i - 1)) = true)).
Proof.
  intros Hn. split.
  - intros output. exists (flat_map expand (firstn (Z.to_nat nbytes) buf)).
    unfold z_impl_zephyr_write_stdout.
    rewrite write_loop_emits by (cbn; lia).
    split; [reflexivity|]. split; [reflexivity|].
    apply expand_cr_before_nl.
  - intros input. unfold z_impl_zephyr_read_stdin.
    destruct (read_loop_spec (Z.to_nat nbytes) 0 buf input) as
        (j & buf' & input' & E & Hj & _ & Hin & Hfill & _ & Hno & Hstop);
      [cbn; lia|].
    exists (Z.of_nat j), buf', input'. rewrite E, Nat2Z.id.
    split; [reflexivity|]. split; [lia|].
    split; [rewrite Hin, Nat.sub_0_r; reflexivity|].
    split; [|split].
    + intros k Hk. rewrite Hfill by lia. rewrite Nat.sub_0_r. reflexivity.
    + intros k Hk. rewrite <- (Nat.sub_0_r k). apply Hno; lia.
    + intros Hlt. destruct Hstop as (Hpos & Hlast); [lia|].
      split; [lia|]. rewrite <- (Nat.sub_0_r (j - 1)). exact Hlast.
Qed.

Lemma C10_console_io_witness :
  z_impl_zephyr_write_stdout [Byte.x68; Byte.x69; Byte.x0a; Byte.x21] 3 [] =
  Some (3, [Byte.x68; Byte.x69; Byte.x0d; Byte.x0a]) /\
  z_impl_zephyr_read_stdin [Byte.x00; Byte.x00; Byte.x00; Byte.x00] 4
    [Byte.x6f; Byte.x6b; Byte.x0d; Byte.x0a] =
  Some (3, [Byte.x6f; Byte.x6b; Byte.x0d; Byte.x00], [Byte.x0a]) /\
  exists i buf' input',
    z_impl_zephyr_read_stdin [Byte.x00; Byte.x00; Byte.x00; Byte.x00] 4
      [Byte.x6f; Byte.x6b; Byte.x0d; Byte.x0a] = Some (i, buf', input') /\
    0 <= i <= 4.
Proof.
  split; [reflexivity|]. split; [reflexivity|].
  destruct (C10_console_io [Byte.x00; Byte.x00; Byte.x00; Byte.x00] 4
              ltac:(cbn; lia)) as (_ & Hread).
  destruct (Hread [Byte.x6f; Byte.x6b; Byte.x0d; Byte.x0a])
    as (i & buf' & input' & E & Hi & _).
  exists i, buf', input'. split; [exact E | exact Hi].
Defined.

(** * Further properties *)

(** ** Growing and shrinking *)




(** ** Grants lie end to end *)





(** ** Targets with an unsigned comparison *)

(** X3: on every 32-bit target, and on the 64-bit ones where
    [MAX_HEAP_SIZE] has an unsigned type, a call with any signed argument
    returns, keeps [0 <= heap_sz <= max_heap_size], changes neither
    [heap_base] nor [max_heap_size], moves the mark by exactly [count] and
    to a place below the capacity when it succeeds, and refuses a request
    that would take the mark below zero. *)
Theorem X3_unsigned_keeps_invariant t st count :
  unsigned_compare t = true ->
  heap_ok t st -> count_ok t count ->
  exists ret st',
    _sbrk t count st = Some (ret, st') /\
    heap_ok t st' /\
    heap_base st' = heap_base st /\
    max_heap_size st' = max_heap_size st /\
    (ret <> SBRK_FAILED t ->
     heap_sz st' = heap_sz st + count /\ heap_sz st' < max_heap_size st') /\
    (heap_sz st + count < 0 -> ret = SBRK_FAILED t /\ st' = st).
Proof.
  intros Hu Hok Hc.
  assert (Hsem : heap_sem st = 1) by apply Hok.
  destruct (_sbrk t count st) as [[ret st']|] eqn:E;
    [|rewrite (sbrk_free t count st Hsem) in E; discriminate E].
  exists ret, st'.
  destruct (sbrk_keeps_heap_ok t count st ret st' Hu Hok Hc E) as (Hok' & Hlt).
  destruct (sbrk_frame t count st ret st' Hsem E) as (Hb & Hm & _).
  split; [reflexivity|]. split; [exact Hok'|].
  split; [exact Hb|]. split; [exact Hm|].
  destruct (sbrk_ok_cases t count st ret st' Hok E)
    as [(Ht & _ & Hne & Hst') | (_ & Hf & Hst')].
  - destruct Hok as (Hr & Hi & _).
    pose proof (sbrk_test_unsigned t st count Hu Hr Hi Hc Ht) as Hin.
    split.
    + intros _. split; [|apply Hlt, Hne].
      rewrite Hst'. cbn. apply heap_sz_add_exact.
      apply (uint_range_of_region t st Hr). lia.
    + intros Hneg. lia.
  - split; [intros Hne; contradiction | intros _; split; assumption].
Qed.

Lemma X3_unsigned_keeps_invariant_witness :
  exists ret st',
    _sbrk cortex_m (-20) (heap100 10) = Some (ret, st') /\
    heap_ok cortex_m st' /\
    ret = SBRK_FAILED cortex_m /\ st' = heap100 10.
Proof.
  destruct (X3_unsigned_keeps_invariant cortex_m (heap100 10) (-20) eq_refl
              ltac:(concrete) ltac:(concrete))
    as (ret & st' & E & Hok & _ & _ & _ & Hneg).
  exists ret, st'. split; [exact E|]. split; [exact Hok|].
  apply Hneg. cbn. lia.
Defined.

(** X4: on the same targets, a heap whose mark is below the capacity stays
    so through any serial run of calls with any signed arguments: the mark
    never reaches the capacity. *)
Theorem X4_unsigned_never_full t counts st :
  unsigned_compare t = true ->
  heap_ok t st -> heap_sz st < max_heap_size st ->
  Forall (count_ok t) counts ->
  exists log st',
    sbrk_calls t counts st = Some (log, st') /\
    heap_ok t st' /\ heap_sz st' < max_heap_size st'.
Proof.
  intros Hu Hok Hlt Hcs.
  exact (sbrk_calls_below_capacity t counts Hu st Hok Hlt Hcs).
Qed.

Lemma X4_unsigned_never_full_witness :
  exists log st',
    sbrk_calls cortex_m [99; -100; 1; -99; 5] (boot_state 536870912 100) =
    Some (log, st') /\
    heap_ok cortex_m st' /\ heap_sz st' < max_heap_size st'.
Proof.
  apply (X4_unsigned_never_full cortex_m [99; -100; 1; -99; 5]
           (boot_state 536870912 100) eq_refl).
  - concrete.
  - cbn. lia.
  - repeat constructor; concrete.
Defined.

(** ** Concurrent callers are served in some serial order *)

Import Linear.

Lemma nth_error_replace_nth_other ths :
  forall i j (x : thread),
    j <> i -> nth_error (replace_nth i x ths) j = nth_error ths j.
Proof.
  induction ths as [|y rest IH]; intros i j x Hne.
  - destruct i, j; reflexivity.
  - destruct i as [|i], j as [|j]; cbn; try reflexivity; try contradiction.
    apply IH. lia.
Qed.

Lemma step_thread_arg t th st th' st' :
  step_thread t th st = Some (th', st') -> Conc.arg th' = Conc.arg th.
Proof.
  unfold step_thread. destruct th as [a p]. cbn [at_pc Conc.arg].
  destruct p; intros E; try (inversion E; subst; reflexivity).
  - destruct (Sem.sys_sem_take (heap_sem st)); inversion E; subst. reflexivity.
Qed.

Lemma map_arg_replace_nth ths :
  forall i th th',
    nth_error ths i = Some th -> Conc.arg th' = Conc.arg th ->
    map Conc.arg (replace_nth i th' ths) = map Conc.arg ths.
Proof.
  induction ths as [|x rest IH]; intros i th th' Hnth Harg.
  - destruct i; discriminate Hnth.
  - destruct i as [|i]; cbn in Hnth |- *.
    + inversion Hnth; subst. rewrite Harg. reflexivity.
    + rewrite (IH i th th' Hnth Harg). reflexivity.
Qed.

(** A serial run extended by one more call. *)
Lemma sbrk_calls_app t cs :
  forall st0 log st1 c ret st2,
    sbrk_calls t cs st0 = Some (log, st1) ->
    _sbrk t c st1 = Some (ret, st2) ->
    sbrk_calls t (cs ++ [c]) st0 = Some (log ++ [(c, ret)], st2).
Proof.
  induction cs as [|x cs IH]; intros st0 log st1 c ret st2 E1 E2.
  - cbn in E1. inversion E1; subst. cbn. rewrite E2. reflexivity.
  - cbn [sbrk_calls app] in E1 |- *.
    destruct (_sbrk t x st0) as [[r st]|]; [|discriminate E1].
    destruct (sbrk_calls t cs st) as [[l st']|] eqn:E; [|discriminate E1].
    inversion E1; subst. rewrite (IH st l st1 c ret st2 E E2). reflexivity.
Qed.

Lemma returned_log_cons th ths :
  returned_log (th :: ths) =
  match at_pc th with
  | Returned ret => (Conc.arg th, ret) :: returned_log ths
  | _ => returned_log ths
  end.
Proof. unfold returned_log. cbn [flat_map]. destruct (at_pc th); reflexivity. Qed.

(** A move that does not return leaves the log of returned calls alone. *)
Lemma returned_log_replace_same ths :
  forall i th th',
    nth_error ths i = Some th ->
    has_returned (at_pc th) = false -> has_returned (at_pc th') = false ->
    returned_log (replace_nth i th' ths) = returned_log ths.
Proof.
  induction ths as [|x rest IH]; intros i th th' Hnth H1 H2.
  - destruct i; discriminate Hnth.
  - destruct i as [|i]; cbn in Hnth; cbn [replace_nth].
    + inversion Hnth; subst. rewrite !returned_log_cons.
      destruct (at_pc th); try discriminate H1;
        destruct (at_pc th'); try discriminate H2; reflexivity.
    + rewrite !returned_log_cons. rewrite (IH i th th' Hnth H1 H2). reflexivity.
Qed.

(** A move that returns adds its call to that log. *)
Lemma returned_log_replace_returned ths :
  forall i th a ret,
    nth_error ths i = Some th ->
    has_returned (at_pc th) = false ->
    Permutation ((a, ret) :: returned_log ths)
                (returned_log (replace_nth i (Thread a (Returned ret)) ths)).
Proof.
  induction ths as [|x rest IH]; intros i th a ret Hnth H1.
  - destruct i; discriminate Hnth.
  - destruct i as [|i]; cbn in Hnth; cbn [replace_nth].
    + inversion Hnth; subst. rewrite !returned_log_cons. cbn [at_pc Conc.arg].
      destruct (at_pc th); try discriminate H1; apply Permutation_refl.
    + rewrite !returned_log_cons. pose proof (IH i th a ret Hnth H1) as IHp.
      destruct (at_pc x); try exact IHp.
      eapply perm_trans; [apply perm_swap|]. apply perm_skip. exact IHp.
Qed.

(** When the context that moves is the only one that may hold the
    semaphore, all the others are outside the critical section. *)
Lemma others_idle ths i th :
  nth_error ths i = Some th ->
  holders ths - holding th = 0 ->
  forall j thj, j <> i -> nth_error ths j = Some thj -> holding thj = 0.
Proof.
  intros Hnth Hzero j thj Hne Hj.
  pose proof (holders_replace_nth ths i th (Thread 0 AtTake) Hnth) as Hrep.
  change (holding (Thread 0 AtTake)) with 0 in Hrep.
  rewrite <- (nth_error_replace_nth_other ths i j (Thread 0 AtTake) Hne) in Hj.
  pose proof (holders_ge _ j thj Hj). pose proof (holding_range thj). lia.
Qed.

Lemma idle_view t st1 th sh : holding th = 0 -> holder_view t st1 th sh.
Proof.
  unfold holding, holder_view. destruct (at_pc th); cbn; intros H;
    try exact I; lia.
Qed.

Lemma views_after t ths i th th' st1 sh :
  nth_error ths i = Some th ->
  holders ths - holding th = 0 ->
  holder_view t st1 th' sh ->
  forall j thj,
    nth_error (replace_nth i th' ths) j = Some thj ->
    holder_view t st1 thj sh.
Proof.
  intros Hnth Hzero Hv j thj Hj. destruct (Nat.eq_dec j i) as [->|Hne].
  - rewrite (nth_error_replace_nth ths i th th' Hnth) in Hj.
    inversion Hj; subst. exact Hv.
  - rewrite (nth_error_replace_nth_other ths i j th' Hne) in Hj.
    apply idle_view. exact (others_idle ths i th Hnth Hzero j thj Hne Hj).
Qed.

Lemma set_heap_sem_twice st a b :
  set_heap_sem (set_heap_sem st a) b = set_heap_sem st b.
Proof. reflexivity. Qed.

Lemma set_heap_sem_free st : heap_sem st = 1 -> set_heap_sem st 1 = st.
Proof. destruct st; cbn; intros ->; reflexivity. Qed.

Lemma serial_inv_start t st0 counts :
  heap_sem st0 = 1 -> serial_inv t st0 counts (start counts st0).
Proof.
  intros Hsem. split.
  - unfold start. cbn [threads]. rewrite map_map. cbn. apply map_id.
  - exists [], st0. cbn [map sbrk_calls].
    split; [reflexivity|]. split.
    + replace (returned_log (threads (start counts st0))) with (@nil (Z * Z));
        [constructor|].
      unfold start. cbn [threads]. induction counts as [|c cs IH];
        [reflexivity | cbn [map]; rewrite returned_log_cons; exact IH].
    + split; [exact Hsem|]. split; [reflexivity|].
      intros i th Hnth. apply idle_view.
      pose proof (holders_ge _ i th Hnth) as Hge.
      rewrite holders_start in Hge. pose proof (holding_range th). lia.
Qed.

(** Arithmetic on the number of holders once the program points are known. *)
Ltac hold_lia :=
  unfold holding in *; cbn [at_pc holds_lock] in *; lia.

Lemma serial_inv_step t st0 counts i s s' :
  lock_inv s -> serial_inv t st0 counts s -> sys_step t i s s' ->
  serial_inv t st0 counts s'.
Proof.
  intros (Hpos & Hsum)
         (Hargs & log & st1 & Hser & Hperm & Hsem1 & Hidle & Hview) Hstep.
  destruct Hstep as [s th th' sh' Hnth E].
  pose proof (Hview i th Hnth) as Hv.
  pose proof (holders_ge (threads s) i th Hnth) as Hge.
  pose proof (holders_nonneg (threads s)) as Hh0.
  pose proof (holding_range th) as Hhr.
  pose proof (holders_replace_nth (threads s) i th th' Hnth) as Hrep.
  split.
  { cbn [threads]. rewrite <- Hargs.
    apply (map_arg_replace_nth (threads s) i th th' Hnth).
    exact (step_thread_arg t th (shared s) th' sh' E). }
  cbn [threads shared].
  destruct th as [a p]. unfold step_thread in E. cbn [at_pc Conc.arg] in E.
  unfold holder_view in Hv. cbn [at_pc Conc.arg] in Hv.
  destruct p.
  - (* the take *)
    unfold Sem.sys_sem_take in E.
    destruct (Z.ltb_spec 0 (heap_sem (shared s))) as [Hfree|]; [|discriminate E].
    inversion E; subst th' sh'; clear E.
    assert (Hnone : holders (threads s) = 0) by lia.
    assert (Hone : heap_sem (shared s) = 1) by lia.
    rewrite (Hidle Hnone) in *.
    exists log, st1. split; [exact Hser|]. split.
    + rewrite (returned_log_replace_same (threads s) i _ _ Hnth);
        [exact Hperm | reflexivity | reflexivity].
    + split; [exact Hsem1|]. split.
      * intros H0. hold_lia.
      * apply (views_after t (threads s) i _ _ st1 _ Hnth); [hold_lia|].
        unfold holder_view. cbn [at_pc]. rewrite Hsem1. reflexivity.
  - (* ptr = HEAP_BASE + heap_sz *)
    inversion E; subst th' sh'; clear E.
    exists log, st1. split; [exact Hser|]. split.
    + rewrite (returned_log_replace_same (threads s) i _ _ Hnth);
        [exact Hperm | reflexivity | reflexivity].
    + split; [exact Hsem1|]. split.
      * intros H0. hold_lia.
      * apply (views_after t (threads s) i _ _ st1 _ Hnth); [hold_lia|].
        unfold holder_view. cbn [at_pc]. split; [exact Hv|].
        rewrite Hv. reflexivity.
  - (* the test *)
    destruct Hv as (Hsh & Hptr).
    inversion E; subst th' sh'; clear E.
    assert (Htest : sbrk_test t (shared s) a = sbrk_test t st1 a)
      by (rewrite Hsh; reflexivity).
    rewrite Htest in *.
    exists log, st1. split; [exact Hser|]. split.
    + rewrite (returned_log_replace_same (threads s) i _ _ Hnth);
        [exact Hperm | reflexivity | destruct (sbrk_test t st1 a); reflexivity].
    + split; [exact Hsem1|]. split.
      * intros H0. destruct (sbrk_test t st1 a); hold_lia.
      * apply (views_after t (threads s) i _ _ st1 _ Hnth); [hold_lia|].
        unfold holder_view. cbn [at_pc Conc.arg].
        destruct (sbrk_test t st1 a) eqn:Ht; repeat split; assumption.
  - (* heap_sz += count; ret = ptr *)
    destruct Hv as (Hsh & Hptr & Ht).
    inversion E; subst th' sh'; clear E.
    exists log, st1. split; [exact Hser|]. split.
    + rewrite (returned_log_replace_same (threads s) i _ _ Hnth);
        [exact Hperm | reflexivity | reflexivity].
    + split; [exact Hsem1|]. split.
      * intros H0. hold_lia.
      * apply (views_after t (threads s) i _ _ st1 _ Hnth); [hold_lia|].
        unfold holder_view. cbn [at_pc Conc.arg].
        exists (set_heap_sz st1 (heap_sz_add (heap_sz st1) a)). split.
        -- rewrite (sbrk_free t a st1 Hsem1), Ht, Hptr. reflexivity.
        -- rewrite Hsh. reflexivity.
  - (* ret = (void * )-1 *)
    destruct Hv as (Hsh & Ht).
    inversion E; subst th' sh'; clear E.
    exists log, st1. split; [exact Hser|]. split.
    + rewrite (returned_log_replace_same (threads s) i _ _ Hnth);
        [exact Hperm | reflexivity | reflexivity].
    + split; [exact Hsem1|]. split.
      * intros H0. hold_lia.
      * apply (views_after t (threads s) i _ _ st1 _ Hnth); [hold_lia|].
        unfold holder_view. cbn [at_pc Conc.arg].
        exists st1. split; [|exact Hsh].
        rewrite (sbrk_free t a st1 Hsem1), Ht. reflexivity.
  - (* the give *)
    destruct Hv as (st2 & Hcall & Hsh).
    inversion E; subst th' sh'; clear E.
    destruct (sbrk_frame t a st1 ret st2 Hsem1 Hcall) as (_ & _ & Hsem2).
    assert (Hnew : set_heap_sem (shared s) (Sem.sys_sem_give (heap_sem (shared s)))
                   = st2).
    { rewrite Hsh. cbn [heap_sem set_heap_sem].
      change (Sem.sys_sem_give 0) with 1.
      destruct st2; cbn in Hsem2 |- *; subst; reflexivity. }
    rewrite Hnew.
    exists (log ++ [(a, ret)]), st2. split.
    + rewrite map_app. cbn [map fst].
      apply (sbrk_calls_app t (map fst log) st0 log st1 a ret st2 Hser Hcall).
    + split.
      * eapply perm_trans; [apply Permutation_sym, Permutation_cons_append|].
        eapply perm_trans; [apply perm_skip, Hperm|].
        apply (returned_log_replace_returned (threads s) i _ a ret Hnth).
        reflexivity.
      * split; [exact Hsem2|]. split; [intros _; reflexivity|].
        apply (views_after t (threads s) i _ _ st2 _ Hnth); [hold_lia|].
        exact I.
  - discriminate E.
Qed.

Lemma serial_inv_reachable t st0 counts s :
  heap_sem st0 = 1 ->
  reachable t (start counts st0) s -> serial_inv t st0 counts s.
Proof.
  intros Hsem Hr. induction Hr as [|s s' i Hr IH Hstep].
  - apply serial_inv_start. exact Hsem.
  - apply (serial_inv_step t st0 counts i s s'); try assumption.
    exact (lock_inv_reachable t counts st0 s Hsem Hr).
Qed.

Lemma all_returned_holders ths :
  all_returned ths = true -> holders ths = 0.
Proof.
  induction ths as [|th rest IH]; intros H; [reflexivity|].
  cbn in H. apply andb_true_iff in H. destruct H as (H1 & H2).
  rewrite holders_cons, (IH H2). unfold holding.
  destruct (at_pc th); cbn in H1 |- *; try discriminate H1; reflexivity.
Qed.

Lemma all_returned_args ths :
  all_returned ths = true -> map fst (returned_log ths) = map Conc.arg ths.
Proof.
  induction ths as [|th rest IH]; intros H; [reflexivity|].
  cbn in H. apply andb_true_iff in H. destruct H as (H1 & H2).
  rewrite returned_log_cons. cbn [map].
  destruct (at_pc th); cbn in H1; try discriminate H1.
  cbn [map fst]. rewrite (IH H2). reflexivity.
Qed.

(** X5: contexts calling [_sbrk] concurrently are served in some serial
    order.  In every reachable state the calls that have returned, with the
    pointers they returned, are exactly those of a serial run of [_sbrk]
    from the initial state, taken in some order; whenever no context is
    inside the critical section the shared state is the state that serial
    run ends in; and once every context has returned, the serial run is a
    run of all the requests. *)
Theorem X5_serial_order t st0 counts s :
  heap_sem st0 = 1 ->
  reachable t (start counts st0) s ->
  exists log st1,
    sbrk_calls t (map fst log) st0 = Some (log, st1) /\
    Permutation log (returned_log (threads s)) /\
    (holders (threads s) = 0 -> shared s = st1) /\
    (all_returned (threads s) = true ->
     shared s = st1 /\ Permutation (map fst log) counts).
Proof.
  intros Hsem Hr.
  destruct (serial_inv_reachable t st0 counts s Hsem Hr)
    as (Hargs & log & st1 & Hser & Hperm & _ & Hidle & _).
  exists log, st1. split; [exact Hser|]. split; [exact Hperm|].
  split; [exact Hidle|]. intros Hall. split.
  - apply Hidle, all_returned_holders, Hall.
  - rewrite <- Hargs, <- (all_returned_args (threads s) Hall).
    apply Permutation_map. exact Hperm.
Qed.

Lemma X5_serial_order_witness :
  schedule cortex_m [1; 1; 1; 1; 1; 0; 0; 0; 0; 0]%nat
    (start [10; 20] (boot_state 536870912 100)) =
  Some (System (heap100 30)
          [Thread 10 (Returned 536870932); Thread 20 (Returned 536870912)]) /\
  exists log st1,
    sbrk_calls cortex_m (map fst log) (boot_state 536870912 100) =
    Some (log, st1) /\
    Permutation log [(10, 536870932); (20, 536870912)] /\
    heap100 30 = st1 /\ Permutation (map fst log) [10; 20].
Proof.
  assert (E : schedule cortex_m [1; 1; 1; 1; 1; 0; 0; 0; 0; 0]%nat
                (start [10; 20] (boot_state 536870912 100)) =
              Some (System (heap100 30)
                      [Thread 10 (Returned 536870932);
                       Thread 20 (Returned 536870912)]))
    by reflexivity.
  split; [exact E|].
  destruct (X5_serial_order cortex_m (boot_state 536870912 100) [10; 20] _
              eq_refl
              (schedule_reachable cortex_m _ _ _ _ (Reach_start cortex_m _) E))
    as (log & st1 & Hser & Hperm & _ & Hall).
  exists log, st1. split; [exact Hser|]. split; [exact Hperm|].
  exact (Hall eq_refl).
Defined.

(** ** Concurrent grants do not overlap *)










(** ** Every call returns *)

Lemma work_cons th ths :
  work (th :: ths) = (remaining (at_pc th) + work ths)%nat.
Proof. reflexivity. Qed.

Lemma work_replace_nth ths :
  forall i th th',
    nth_error ths i = Some th ->
    (work (replace_nth i th' ths) + remaining (at_pc th) =
     work ths + remaining (at_pc th'))%nat.
Proof.
  induction ths as [|x rest IH]; intros i th th' Hnth.
  - destruct i; discriminate Hnth.
  - destruct i as [|i]; cbn in Hnth; cbn [replace_nth]; rewrite !work_cons.
    + inversion Hnth; subst. lia.
    + pose proof (IH i th th' Hnth). lia.
Qed.

(** Each move runs one statement. *)
Lemma step_thread_remaining t th st th' st' :
  step_thread t th st = Some (th', st') ->
  remaining (at_pc th) = S (remaining (at_pc th')).
Proof.
  unfold step_thread. destruct th as [a p]. cbn [at_pc Conc.arg].
  destruct p; intros E; try (inversion E; subst; reflexivity).
  - destruct (Sem.sys_sem_take (heap_sem st)); inversion E; subst. reflexivity.
  - inversion E; subst. cbn [at_pc]. destruct (sbrk_test t st' a); reflexivity.
Qed.

Lemma work_start counts st :
  work (threads (start counts st)) = (5 * length counts)%nat.
Proof.
  unfold start. cbn [threads]. induction counts as [|c cs IH];
    [reflexivity|]. cbn [map length]. rewrite work_cons, IH. cbn [at_pc remaining]. lia.
Qed.

Lemma reachable_in_work t counts st0 k s :
  reachable_in t (start counts st0) k s ->
  (work (threads s) + k = 5 * length counts)%nat.
Proof.
  intros H. induction H as [|k s s' i _ IH Hstep].
  - rewrite work_start. lia.
  - destruct Hstep as [s th th' st' Hnth E]. cbn [threads].
    pose proof (work_replace_nth (threads s) i th th' Hnth).
    pose proof (step_thread_remaining t th (shared s) th' st' E). lia.
Qed.

Lemma reachable_in_reachable t s0 k s :
  reachable_in t s0 k s -> reachable t s0 s.
Proof.
  intros H. induction H as [|k s s' i _ IH Hstep];
    [constructor | econstructor; eassumption].
Qed.

Lemma work_zero_all_returned ths :
  work ths = 0%nat -> all_returned ths = true.
Proof.
  induction ths as [|th rest IH]; intros H; [reflexivity|].
  rewrite work_cons in H. unfold all_returned in *. cbn [forallb].
  rewrite IH by lia.
  destruct (at_pc th); cbn in H |- *; try reflexivity; lia.
Qed.

Lemma work_positive_pending ths :
  (0 < work ths)%nat ->
  exists th, In th ths /\ has_returned (at_pc th) = false.
Proof.
  induction ths as [|th rest IH]; intros H; [cbn in H; lia|].
  rewrite work_cons in H.
  destruct (has_returned (at_pc th)) eqn:Hret.
  - destruct (at_pc th); try discriminate Hret. cbn in H.
    destruct (IH H) as (x & Hin & Hx). exists x. split; [right; exact Hin | exact Hx].
  - exists th. split; [left; reflexivity | exact Hret].
Qed.

(** While a context has not returned, some context can move. *)
Lemma pending_can_move t counts st0 s :
  heap_sem st0 = 1 ->
  reachable t (start counts st0) s ->
  (exists th, In th (threads s) /\ has_returned (at_pc th) = false) ->
  exists i s', sys_step t i s s'.
Proof.
  intros Hsem Hr (th & Hin & Hnr).
  pose proof (lock_inv_reachable t counts st0 s Hsem Hr) as (Hpos & Hsum).
  pose proof (holders_nonneg (threads s)) as Hh0.
  destruct (Z.eq_dec (holders (threads s)) 0) as [Hnone|Hsome].
  - destruct (In_nth_error (threads s) th Hin) as (i & Hnth).
    pose proof (holders_ge (threads s) i th Hnth).
    pose proof (holding_range th).
    assert (Hpc : at_pc th = AtTake)
      by (apply outside_is_at_take; [exact Hnr | lia]).
    assert (Hone : heap_sem (shared s) = 1) by lia.
    exists i. eexists.
    apply (Sys_step t i s th (Thread (Conc.arg th) AtPtr)
             (set_heap_sem (shared s) (1 - 1)) Hnth).
    unfold step_thread. rewrite Hpc, Hone. reflexivity.
  - destruct (holder_exists (threads s)) as (i & h & Hnth & Hh); [lia|].
    destruct (holder_can_step t h (shared s) Hh) as (h' & st' & E).
    exists i. eexists. exact (Sys_step t i s h h' st' Hnth E).
Qed.

(** X7: no call is starved or spins.  With [n] contexts calling [_sbrk],
    every execution has at most [5 n] moves; after [5 n] moves every
    context has returned; and before that some context can always make its
    next move, so that no execution stops short. *)
Theorem X7_all_calls_return t st0 counts k s :
  heap_sem st0 = 1 ->
  reachable_in t (start counts st0) k s ->
  (k <= 5 * length counts)%nat /\
  (k = (5 * length counts)%nat -> all_returned (threads s) = true) /\
  ((k < 5 * length counts)%nat -> exists i s', sys_step t i s s').
Proof.
  intros Hsem Hr.
  pose proof (reachable_in_work t counts st0 k s Hr) as Hw.
  split; [lia|]. split.
  - intros Hk. apply work_zero_all_returned. lia.
  - intros Hk.
    apply (pending_can_move t counts st0 s Hsem
             (reachable_in_reachable t _ k s Hr)).
    apply work_positive_pending. lia.
Qed.

Lemma X7_all_calls_return_witness :
  exists i s',
    sys_step cortex_m i (start [200; 10] (heap100 0)) s'.
Proof.
  destruct (X7_all_calls_return cortex_m (heap100 0) [200; 10] 0 _ eq_refl
              (Reach_in_start cortex_m _)) as (_ & _ & Hmove).
  apply Hmove. cbn. lia.
Defined.

(** ** [malloc_prepare] *)

Import Prepare.

(** A heap of capacity 0 grants nothing, whatever is asked. *)
Lemma sbrk_empty_heap t st count :
  unsigned_compare t = true ->
  heap_sem st = 1 -> max_heap_size st = 0 ->
  _sbrk t count st = Some (SBRK_FAILED t, st).
Proof.
  intros Hu Hsem Hmax. rewrite (sbrk_free t count st Hsem).
  replace (sbrk_test t st count) with false; [reflexivity|].
  symmetry. unfold sbrk_test. rewrite Hmax. clear Hsem Hmax.
  each_target t; try discriminate Hu; cint_solve.
Qed.

(** X8: under [CONFIG_MMU], when the Kconfig limit or the free memory is 0,
    [malloc_prepare] returns 0 with a heap of capacity 0, maps nothing
    ([heap_base] is left as it was), and from then on every [_sbrk], whatever
    its argument, returns [(void * )-1] and changes nothing. *)
Theorem X8_no_memory_no_heap t k st part :
  config t = HEAP_MMU ->
  heap_sem st = 1 ->
  MIN (to_unsigned (ptr_bits (model t))
         (CONFIG_PICOLIBC_LIBC_MAX_MAPPED_REGION_SIZE k))
      (k_mem_free_get k) = 0 ->
  exists st' part',
    malloc_prepare t k st part = Some (0, st', part') /\
    max_heap_size st' = 0 /\
    heap_base st' = heap_base st /\
    forall count, _sbrk t count st' = Some (SBRK_FAILED t, st').
Proof.
  intros Hcfg Hsem Hmin.
  exists (set_max_heap_size st 0). eexists. split.
  - unfold malloc_prepare, map_heap. rewrite Hcfg, Hmin. cbn. reflexivity.
  - split; [reflexivity|]. split; [reflexivity|].
    intros count. apply sbrk_empty_heap; try reflexivity; try exact Hsem.
    unfold unsigned_compare, max_is_int. rewrite Hcfg.
    destruct (model t); reflexivity.
Qed.

Lemma X8_no_memory_no_heap_witness :
  exists st' part',
    malloc_prepare (Target LP64 HEAP_MMU)
      (Kernel 1048576 0 (fun _ => 0) 7 true true)
      (boot_state 0 0) (Partition 0 0 0) = Some (0, st', part') /\
    max_heap_size st' = 0 /\
    heap_base st' = 0 /\
    forall count,
      _sbrk (Target LP64 HEAP_MMU) count st' =
      Some (SBRK_FAILED (Target LP64 HEAP_MMU), st').
Proof.
  apply (X8_no_memory_no_heap (Target LP64 HEAP_MMU)
           (Kernel 1048576 0 (fun _ => 0) 7 true true)
           (boot_state 0 0) (Partition 0 0 0)); reflexivity.
Defined.

(** What [malloc_prepare] returns and what it leaves alone. *)
Lemma malloc_prepare_result t k st part r st' part' :
  malloc_prepare t k st part = Some (r, st', part') ->
  r = 0 /\
  heap_sz st' = heap_sz st /\ heap_sem st' = heap_sem st /\
  (config t <> HEAP_MMU -> st' = st) /\
  (Z_MALLOC_PARTITION_EXISTS k = true ->
   start part' = heap_base st' /\ size part' = max_heap_size st') /\
  (Z_MALLOC_PARTITION_EXISTS k = false -> part' = part).
Proof.
  unfold malloc_prepare. intros E.
  assert (Hst : forall st1,
             match config t with
             | HEAP_MMU => map_heap t k st
             | _ => Some st
             end = Some st1 ->
             heap_sz st1 = heap_sz st /\ heap_sem st1 = heap_sem st /\
             (config t <> HEAP_MMU -> st1 = st)).
  { intros st1 E1. destruct (config t).
    - unfold map_heap in E1.
      destruct (negb _); [destruct (_ && _); [discriminate E1|]|];
        inversion E1; subst; cbn; repeat split; intros H; contradiction.
    - inversion E1; subst. repeat split.
    - inversion E1; subst. repeat split. }
  destruct (match config t with
            | HEAP_MMU => map_heap t k st
            | _ => Some st
            end) as [st1|]; [|discriminate E].
  destruct (Hst st1 eq_refl) as (Hsz & Hsem & Hsame).
  inversion E; subst r st' part'; clear E.
  split; [reflexivity|]. split; [exact Hsz|]. split; [exact Hsem|].
  split; [exact Hsame|].
  split; intros Hp; rewrite Hp; [split|]; reflexivity.
Qed.



(** X10: under [CONFIG_MMU], with a Kconfig limit that is a non-negative
    [int], [malloc_prepare] makes the heap as large as the smaller of the
    limit and the free memory, hence never larger than [INT_MAX]; a
    non-empty heap gets the address [k_mem_map] returned, which is not
    [NULL] when assertions are compiled in; [heap_sz] and the semaphore are
    left as they were. *)
Theorem X10_mapped_heap_bounds t k st part r st' part' :
  config t = HEAP_MMU ->
  0 <= CONFIG_PICOLIBC_LIBC_MAX_MAPPED_REGION_SIZE k <= INT_MAX ->
  0 <= k_mem_free_get k ->
  malloc_prepare t k st part = Some (r, st', part') ->
  max_heap_size st' =
  Z.min (CONFIG_PICOLIBC_LIBC_MAX_MAPPED_REGION_SIZE k) (k_mem_free_get k) /\
  0 <= max_heap_size st' <= INT_MAX /\
  heap_sz st' = heap_sz st /\ heap_sem st' = heap_sem st /\
  (max_heap_size st' = 0 -> heap_base st' = heap_base st) /\
  (max_heap_size st' <> 0 ->
   heap_base st' = k_mem_map k (max_heap_size st') /\
   (CONFIG_ASSERT k = true -> heap_base st' <> 0)).
Proof.
  intros Hcfg Hlim Hfree E.
  destruct (malloc_prepare_result t k st part r st' part' E)
    as (_ & Hsz & Hsem & _).
  unfold malloc_prepare in E. rewrite Hcfg in E.
  assert (Hconv : to_unsigned (ptr_bits (model t))
                    (CONFIG_PICOLIBC_LIBC_MAX_MAPPED_REGION_SIZE k) =
                  CONFIG_PICOLIBC_LIBC_MAX_MAPPED_REGION_SIZE k).
  { apply to_unsigned_small. rewrite INT_MAX_eq in Hlim.
    destruct (model t); autorewrite with cint; lia. }
  unfold map_heap in E. rewrite Hconv in E.
  assert (Hmin : MIN (CONFIG_PICOLIBC_LIBC_MAX_MAPPED_REGION_SIZE k)
                     (k_mem_free_get k) =
                 Z.min (CONFIG_PICOLIBC_LIBC_MAX_MAPPED_REGION_SIZE k)
                       (k_mem_free_get k)).
  { unfold MIN. destruct (Z.ltb_spec (CONFIG_PICOLIBC_LIBC_MAX_MAPPED_REGION_SIZE k)
                            (k_mem_free_get k)); lia. }
  rewrite Hmin in E. cbn [max_heap_size set_max_heap_size] in E.
  set (m := Z.min (CONFIG_PICOLIBC_LIBC_MAX_MAPPED_REGION_SIZE k)
                  (k_mem_free_get k)) in *.
  assert (Hm : 0 <= m <= INT_MAX) by (unfold m; lia).
  destruct (Z.eqb_spec m 0) as [Hz|Hnz]; cbn [negb] in E.
  - inversion E; subst st'. cbn. repeat split; try lia; try assumption.
  - cbn [heap_base set_heap_base] in E.
    destruct (CONFIG_ASSERT k) eqn:Hassert; cbn [andb] in E.
    + destruct (Z.eqb_spec (k_mem_map k m) 0) as [Hnull|Hmapped];
        [discriminate E|].
      inversion E; subst st'. cbn. repeat split; try lia; try assumption.
    + inversion E; subst st'. cbn. repeat split; try lia; try assumption;
        try discriminate.
Qed.

Lemma X10_mapped_heap_bounds_witness :
  max_heap_size (boot_state 536870912 100) = Z.min 100 4096 /\
  0 <= max_heap_size (boot_state 536870912 100) <= INT_MAX.
Proof.
  destruct (X10_mapped_heap_bounds (Target ILP32 HEAP_MMU)
              (Kernel 100 4096 (fun _ => 536870912) 7 true true)
              (boot_state 0 0) (Partition 0 0 0)
              0 (boot_state 536870912 100) (Partition 536870912 100 7)
              eq_refl ltac:(cbn; unfold INT_MAX; lia) ltac:(cbn; lia) eq_refl)
    as (Hmax & Hrange & _).
  split; [exact Hmax | exact Hrange].
Defined.

(** ** [_write] *)

Import Posix.

Lemma expand_length l :
  length (flat_map expand l) = (length l + newlines l)%nat.
Proof.
  unfold newlines. induction l as [|b l IH]; [reflexivity|].
  cbn [flat_map filter]. rewrite length_app, IH. unfold expand.
  destruct (Byte.eqb b NL); cbn [length]; lia.
Qed.

Lemma firstn_add {A} (n1 n2 : nat) :
  forall l : list A,
    firstn (n1 + n2) l = firstn n1 l ++ firstn n2 (skipn n1 l).
Proof.
  induction n1 as [|n1 IH]; intros l; [reflexivity|].
  destruct l as [|a l]; cbn [Nat.add firstn skipn app].
  - rewrite firstn_nil. reflexivity.
  - rewrite IH. reflexivity.
Qed.

(** X11: a count that is zero or negative makes both loops do nothing:
    [_write], on any descriptor and any buffer, writes nothing and returns
    the count as it is, a negative one included; [_read] returns 0 and
    touches neither the buffer nor the input. *)
Theorem X11_nonpositive_count fd buf nbytes :
  nbytes <= 0 ->
  (forall output, _write fd buf nbytes output = Some (nbytes, output)) /\
  (forall input, _read fd buf nbytes input = Some (0, buf, input)).
Proof.
  intros Hn.
  assert (Hz : Z.to_nat nbytes = 0%nat) by lia.
  unfold _write, _read, z_impl_zephyr_write_stdout, z_impl_zephyr_read_stdin.
  rewrite Hz. split; intros; reflexivity.
Qed.

Lemma X11_nonpositive_count_witness :
  _write 1 [] (-3) [Byte.x41] = Some (-3, [Byte.x41]) /\
  _read 0 [Byte.x00] (-3) [Byte.x41] = Some (0, [Byte.x00], [Byte.x41]).
Proof.
  destruct (X11_nonpositive_count 1 [] (-3) ltac:(lia)) as (Hw & _).
  destruct (X11_nonpositive_count 0 [Byte.x00] (-3) ltac:(lia)) as (_ & Hr).
  split; [apply Hw | apply Hr].
Defined.

(** X12: [_write] returns the count it was given although it writes more:
    the output grows by [nbytes] bytes plus one carriage return for every
    newline among the bytes written. *)
Theorem X12_write_output_length fd buf nbytes output :
  0 <= nbytes <= Z.of_nat (length buf) ->
  exists output',
    _write fd buf nbytes output = Some (nbytes, output') /\
    Z.of_nat (length output') =
    Z.of_nat (length output) + nbytes +
    Z.of_nat (newlines (firstn (Z.to_nat nbytes) buf)).
Proof.
  intros Hn. unfold _write, z_impl_zephyr_write_stdout.
  rewrite write_loop_emits by (cbn; lia). cbn [skipn].
  eexists. split; [reflexivity|].
  rewrite length_app, expand_length, length_firstn. lia.
Qed.

Lemma X12_write_output_length_witness :
  exists output',
    _write 1 [Byte.x68; Byte.x0a; Byte.x0a; Byte.x21] 3 [] =
    Some (3, output') /\
    Z.of_nat (length output') = 0 + 3 + 2.
Proof.
  apply (X12_write_output_length 1 [Byte.x68; Byte.x0a; Byte.x0a; Byte.x21] 3 []).
  cbn. lia.
Defined.

(** X13: writing in two pieces is the same as writing in one: [_write] of
    the first [n1] bytes of a buffer followed by [_write] of the next [n2]
    bytes leaves the same output as one [_write] of [n1 + n2] bytes. *)
Theorem X13_write_in_pieces fd buf n1 n2 output :
  0 <= n1 -> 0 <= n2 -> n1 + n2 <= Z.of_nat (length buf) ->
  exists output1 output2,
    _write fd buf n1 output = Some (n1, output1) /\
    _write fd (skipn (Z.to_nat n1) buf) n2 output1 = Some (n2, output2) /\
    _write fd buf (n1 + n2) output = Some (n1 + n2, output2).
Proof.
  intros H1 H2 Hlen. unfold _write, z_impl_zephyr_write_stdout.
  exists (output ++ flat_map expand (firstn (Z.to_nat n1) buf)).
  exists ((output ++ flat_map expand (firstn (Z.to_nat n1) buf)) ++
          flat_map expand (firstn (Z.to_nat n2) (skipn (Z.to_nat n1) buf))).
  rewrite (write_loop_emits (Z.to_nat n1)) by (cbn; lia).
  rewrite (write_loop_emits (Z.to_nat n2))
    by (cbn; rewrite length_skipn; lia).
  rewrite (write_loop_emits (Z.to_nat (n1 + n2))) by (cbn; lia).
  cbn [skipn].
  split; [reflexivity|]. split; [reflexivity|].
  rewrite Z2Nat.inj_add by lia. rewrite firstn_add, flat_map_app, app_assoc.
  reflexivity.
Qed.

Lemma X13_write_in_pieces_witness :
  exists output1 output2,
    _write 1 [Byte.x68; Byte.x0a; Byte.x69; Byte.x0a] 2 [] =
    Some (2, output1) /\
    _write 1 [Byte.x69; Byte.x0a] 2 output1 = Some (2, output2) /\
    _write 1 [Byte.x68; Byte.x0a; Byte.x69; Byte.x0a] (2 + 2) [] =
    Some (2 + 2, output2).
Proof.
  apply (X13_write_in_pieces 1 [Byte.x68; Byte.x0a; Byte.x69; Byte.x0a] 2 2 []);
    cbn; lia.
Defined.

(** ** [_read] *)

Lemma char_of_int_of_char b : char_of_int (int_of_char b) = b.
Proof. destruct b; reflexivity. Qed.

(** While input is pending, the byte stored is the byte read. *)
Lemma incoming_pending input :
  forall k, (k < length input)%nat -> Some (incoming input k) = nth_error input k.
Proof.
  unfold incoming. induction input as [|b rest IH]; intros k Hk; cbn in Hk; [lia|].
  destruct k as [|k]; cbn [map nth nth_error].
  - rewrite char_of_int_of_char. reflexivity.
  - apply IH. lia.
Qed.

(** When the input has run out, [getchar] returns [EOF] and the byte stored
    is 0xff. *)
Lemma incoming_eof input :
  forall k, (length input <= k)%nat -> incoming input k = Byte.xff.
Proof.
  intros k Hk. unfold incoming.
  rewrite nth_overflow by (rewrite length_map; exact Hk). reflexivity.
Qed.

Lemma incoming_not_eol input :
  Forall (fun b => is_eol b = false) input ->
  forall k, is_eol (incoming input k) = false.
Proof.
  intros Hall k. destruct (Nat.lt_ge_cases k (length input)) as [Hlt|Hge].
  - pose proof (incoming_pending input k Hlt) as Hk.
    rewrite Forall_forall in Hall. apply Hall.
    apply (nth_error_In input k). symmetry. exact Hk.
  - rewrite (incoming_eof input k Hge). reflexivity.
Qed.

Lemma store_lt buf :
  forall i c buf', store buf i c = Some buf' -> (i < length buf)%nat.
Proof.
  induction buf as [|b rest IH]; intros i c buf' E.
  - destruct i; discriminate E.
  - destruct i as [|i]; cbn [length]; [lia|].
    cbn [store] in E. destruct (store rest i c) as [r|] eqn:Er; [|discriminate E].
    pose proof (IH i c r Er). lia.
Qed.

(** What the read loop leaves alone: the length of the buffer and every byte
    from the returned index on. *)
Lemma read_loop_frame n :
  forall i buf input j buf' input',
    read_loop n i buf input = Some (j, buf', input') ->
    (i <= j)%nat /\
    length buf' = length buf /\
    (forall k, (j <= k)%nat -> nth_error buf' k = nth_error buf k).
Proof.
  induction n as [|n IH]; intros i buf input j buf' input' E.
  - cbn in E. inversion E; subst. repeat split; lia.
  - cbn [read_loop] in E. destruct (getchar input) as [c input1].
    destruct (store buf i (char_of_int c)) as [buf1|] eqn:Es; [|discriminate E].
    pose proof (store_lt buf i _ buf1 Es) as Hi.
    destruct (store_in_range buf i (char_of_int c) Hi)
      as (b1 & Es' & Hlen1 & Hnth1 & Hoth1).
    rewrite Es in Es'. inversion Es'; subst b1; clear Es'.
    rewrite Hnth1 in E.
    destruct (is_eol (char_of_int c)).
    + inversion E; subst. split; [lia|]. split; [exact Hlen1|].
      intros k Hk. apply Hoth1. lia.
    + destruct (IH (S i) buf1 input1 j buf' input' E) as (Hij & Hlen & Hkeep).
      split; [lia|]. split; [congruence|].
      intros k Hk. rewrite Hkeep by exact Hk. apply Hoth1. lia.
Qed.

(** X14: [_read] never writes past the count it returns: whenever it
    returns, the buffer has kept its length and every byte at an index not
    below the returned count is as it was. *)
Theorem X14_read_keeps_tail fd buf nbytes input i buf' input' :
  _read fd buf nbytes input = Some (i, buf', input') ->
  length buf' = length buf /\
  forall k, (Z.to_nat i <= k)%nat -> nth_error buf' k = nth_error buf k.
Proof.
  unfold _read, z_impl_zephyr_read_stdin. intros E.
  destruct (read_loop (Z.to_nat nbytes) 0 buf input) as [[[j b] inp]|] eqn:El;
    [|discriminate E].
  inversion E; subst i buf' input'; clear E.
  destruct (read_loop_frame _ _ _ _ _ _ _ El) as (_ & Hlen & Hkeep).
  split; [exact Hlen|]. intros k Hk. apply Hkeep. lia.
Qed.

Lemma X14_read_keeps_tail_witness :
  length [Byte.x6f; Byte.x6b; Byte.x0d; Byte.x07] = 4%nat /\
  nth_error [Byte.x6f; Byte.x6b; Byte.x0d; Byte.x07] 3 = Some Byte.x07.
Proof.
  destruct (X14_read_keeps_tail 0 [Byte.x00; Byte.x00; Byte.x00; Byte.x07] 4
              [Byte.x6f; Byte.x6b; Byte.x0d; Byte.x0a]
              3 [Byte.x6f; Byte.x6b; Byte.x0d; Byte.x07] [Byte.x0a] eq_refl)
    as (Hlen & Hkeep).
  split; [exact Hlen | exact (Hkeep 3%nat ltac:(cbn; lia))].
Defined.

(** The read loop from index 0, by where the first line end comes in. *)
Lemma read_result fd buf nbytes input :
  0 <= nbytes <= Z.of_nat (length buf) ->
  exists j buf',
    _read fd buf nbytes input = Some (Z.of_nat j, buf', skipn j input) /\
    (j <= Z.to_nat nbytes)%nat /\
    length buf' = length buf /\
    firstn j buf' = map (incoming input) (seq 0 j) /\
    (forall k, (S k < j)%nat -> is_eol (incoming input k) = false) /\
    ((j < Z.to_nat nbytes)%nat ->
     (0 < j)%nat /\ is_eol (incoming input (j - 1)) = true).
Proof.
  intros Hn. unfold _read, z_impl_zephyr_read_stdin.
  destruct (read_loop_spec (Z.to_nat nbytes) 0 buf input) as
      (j & buf' & input' & E & Hj & Hlen & Hin & Hfill & _ & Hno & Hstop);
    [cbn; lia|].
  exists j, buf'. rewrite E, Hin, Nat.sub_0_r.
  split; [reflexivity|]. split; [lia|]. split; [exact Hlen|]. split; [|split].
  - apply nth_error_ext. intros k.
    rewrite nth_error_firstn, nth_error_map, nth_error_seq.
    destruct (Nat.ltb_spec k j) as [Hk|Hk]; [|reflexivity].
    rewrite Hfill by lia. rewrite Nat.sub_0_r. reflexivity.
  - intros k Hk. rewrite <- (Nat.sub_0_r k). apply Hno; lia.
  - intros Hlt. destruct Hstop as (Hpos & Hlast); [lia|].
    split; [lia|]. rewrite <- (Nat.sub_0_r (j - 1)). exact Hlast.
Qed.

Lemma map_incoming_pending input :
  forall j, (j <= length input)%nat ->
            map (incoming input) (seq 0 j) = firstn j input.
Proof.
  intros j Hj. apply nth_error_ext. intros k.
  rewrite nth_error_firstn, nth_error_map, nth_error_seq.
  destruct (Nat.ltb_spec k j) as [Hk|Hk]; [|reflexivity].
  cbn [option_map Nat.add]. apply incoming_pending. lia.
Qed.

(** X15: the end of the input does not stop [_read].  When no pending byte
    ends a line, [_read] returns the full count [nbytes], the pending bytes
    come first in the buffer, and every position after them, up to [nbytes],
    holds 0xff, the [EOF] that [getchar] returned stored into a [char]. *)
Theorem X15_read_past_end_of_input fd buf nbytes input :
  0 <= nbytes <= Z.of_nat (length buf) ->
  Forall (fun b => is_eol b = false) input ->
  exists buf',
    _read fd buf nbytes input =
    Some (nbytes, buf', skipn (Z.to_nat nbytes) input) /\
    (forall k, (k < Z.to_nat nbytes)%nat -> (k < length input)%nat ->
               nth_error buf' k = nth_error input k) /\
    (forall k, (length input <= k < Z.to_nat nbytes)%nat ->
               nth_error buf' k = Some Byte.xff).
Proof.
  intros Hn Hall.
  destruct (read_result fd buf nbytes input Hn)
    as (j & buf' & E & Hj & _ & Hpre & _ & Hstop).
  assert (Hfull : j = Z.to_nat nbytes).
  { destruct (Nat.eq_dec j (Z.to_nat nbytes)) as [|Hne]; [assumption|].
    destruct Hstop as (_ & Hlast); [lia|].
    rewrite (incoming_not_eol input Hall) in Hlast. discriminate Hlast. }
  subst j. rewrite Z2Nat.id in E by lia.
  exists buf'. split; [exact E|].
  assert (Hbyte : forall k, (k < Z.to_nat nbytes)%nat ->
                            nth_error buf' k = Some (incoming input k)).
  { intros k Hk.
    assert (H : nth_error (firstn (Z.to_nat nbytes) buf') k =
                nth_error (map (incoming input) (seq 0 (Z.to_nat nbytes))) k)
      by (rewrite Hpre; reflexivity).
    rewrite nth_error_firstn, nth_error_map, nth_error_seq in H.
    destruct (Nat.ltb_spec k (Z.to_nat nbytes)); [exact H | lia]. }
  split.
  - intros k Hk Hin. rewrite (Hbyte k Hk). apply incoming_pending. exact Hin.
  - intros k Hk. rewrite (Hbyte k) by lia. rewrite incoming_eof by lia.
    reflexivity.
Qed.

Lemma X15_read_past_end_of_input_witness :
  exists buf',
    _read 0 [Byte.x00; Byte.x00; Byte.x00; Byte.x00] 3 [Byte.x6f] =
    Some (3, buf', []) /\
    nth_error buf' 0 = Some Byte.x6f /\
    nth_error buf' 2 = Some Byte.xff.
Proof.
  destruct (X15_read_past_end_of_input 0
              [Byte.x00; Byte.x00; Byte.x00; Byte.x00] 3 [Byte.x6f]
              ltac:(cbn; lia) ltac:(repeat constructor))
    as (buf' & E & Hin & Heof).
  exists buf'. split; [exact E|]. split.
  - apply (Hin 0%nat); cbn; lia.
  - apply (Heof 2%nat). cbn. lia.
Defined.

(** X16: a line ended by carriage return and newline is read as two lines.
    [_read] stops right after the carriage return and leaves the newline
    pending; the next [_read], whatever its buffer and count, returns that
    newline alone, as a line of one byte. *)
Theorem X16_crlf_is_two_lines fd buf nbytes line rest buf2 nbytes2 :
  Forall (fun b => is_eol b = false) line ->
  Z.of_nat (length line) < nbytes <= Z.of_nat (length buf) ->
  0 < nbytes2 <= Z.of_nat (length buf2) ->
  exists buf' buf2',
    _read fd buf nbytes (line ++ CR :: NL :: rest) =
    Some (Z.of_nat (length line) + 1, buf', NL :: rest) /\
    firstn (S (length line)) buf' = line ++ [CR] /\
    _read fd buf2 nbytes2 (NL :: rest) = Some (1, buf2', rest) /\
    nth_error buf2' 0 = Some NL.
Proof.
  intros Hline Hn Hn2.
  set (input := line ++ CR :: NL :: rest).
  assert (Hlen_in : (S (length line) <= length input)%nat)
    by (unfold input; rewrite length_app; cbn [length]; lia).
  assert (Hbefore : forall k, (k < length line)%nat ->
                              is_eol (incoming input k) = false).
  { intros k Hk.
    pose proof (incoming_pending input k ltac:(lia)) as Hinc.
    unfold input in Hinc at 2. rewrite nth_error_app1 in Hinc by exact Hk.
    rewrite Forall_forall in Hline. apply Hline.
    apply (nth_error_In line k). symmetry. exact Hinc. }
  assert (Hat : incoming input (length line) = CR).
  { pose proof (incoming_pending input (length line) ltac:(lia)) as Hinc.
    unfold input in Hinc at 2. rewrite nth_error_app2 in Hinc by lia.
    rewrite Nat.sub_diag in Hinc. cbn in Hinc. inversion Hinc. reflexivity. }
  destruct (read_result fd buf nbytes input ltac:(lia))
    as (j & buf' & E & Hj & _ & Hpre & Hno & Hstop).
  assert (Hjeq : j = S (length line)).
  { destruct (Nat.lt_trichotomy j (S (length line))) as [Hlt|[Heq|Hgt]].
    - destruct Hstop as (Hpos & Hlast); [lia|].
      rewrite Hbefore in Hlast by lia. discriminate Hlast.
    - exact Heq.
    - pose proof (Hno (length line) Hgt) as Hc. rewrite Hat in Hc.
      discriminate Hc. }
  subst j.
  destruct buf2 as [|b2 bs2]; [cbn in Hn2; lia|].
  exists buf', (NL :: bs2).
  split; [|split; [|split]].
  - rewrite E. f_equal. f_equal; [f_equal; lia|].
    unfold input. rewrite skipn_app.
    rewrite skipn_all2 by lia.
    replace (S (length line) - length line)%nat with 1%nat by lia. reflexivity.
  - rewrite Hpre, (map_incoming_pending input _ Hlen_in).
    unfold input. rewrite firstn_app, firstn_all2 by lia.
    replace (S (length line) - length line)%nat with 1%nat by lia. reflexivity.
  - unfold _read, z_impl_zephyr_read_stdin.
    destruct (Z.to_nat nbytes2) as [|m] eqn:Hm; [lia|]. reflexivity.
  - reflexivity.
Qed.

Lemma X16_crlf_is_two_lines_witness :
  exists buf' buf2',
    _read 0 [Byte.x00; Byte.x00; Byte.x00; Byte.x00] 4
      ([Byte.x6f; Byte.x6b] ++ CR :: NL :: [Byte.x21]) =
    Some (Z.of_nat 2 + 1, buf', NL :: [Byte.x21]) /\
    firstn 3 buf' = [Byte.x6f; Byte.x6b] ++ [CR] /\
    _read 0 [Byte.x00; Byte.x00] 2 (NL :: [Byte.x21]) =
    Some (1, buf2', [Byte.x21]) /\
    nth_error buf2' 0 = Some NL.
Proof.
  apply (X16_crlf_is_two_lines 0 [Byte.x00; Byte.x00; Byte.x00; Byte.x00] 4
           [Byte.x6f; Byte.x6b] [Byte.x21] [Byte.x00; Byte.x00] 2).
  - repeat constructor.
  - cbn. lia.
  - cbn. lia.
Defined.

(** X17: echoing works.  What [_read] has stored, written back with
    [_write] and the count [_read] returned, comes out as the bytes that
    were read, each newline preceded by a carriage return; for a line that
    was fully pending these are the first bytes of the input. *)
Theorem X17_read_then_write_echoes fd_in fd_out buf nbytes input output :
  0 <= nbytes <= Z.of_nat (length buf) ->
  exists i buf' input',
    _read fd_in buf nbytes input = Some (i, buf', input') /\
    0 <= i <= nbytes /\
    _write fd_out buf' i output =
    Some (i, output ++
             flat_map expand (map (incoming input) (seq 0 (Z.to_nat i)))) /\
    ((Z.to_nat i <= length input)%nat ->
     _write fd_out buf' i output =
     Some (i, output ++ flat_map expand (firstn (Z.to_nat i) input))).
Proof.
  intros Hn.
  destruct (read_result fd_in buf nbytes input Hn)
    as (j & buf' & E & Hj & Hlen & Hpre & _ & _).
  exists (Z.of_nat j), buf', (skipn j input).
  split; [exact E|]. split; [lia|].
  assert (Hw : _write fd_out buf' (Z.of_nat j) output =
               Some (Z.of_nat j,
                     output ++ flat_map expand (map (incoming input) (seq 0 j)))).
  { unfold _write, z_impl_zephyr_write_stdout. rewrite Nat2Z.id.
    rewrite write_loop_emits by (cbn; lia). cbn [skipn]. rewrite Hpre.
    reflexivity. }
  rewrite Nat2Z.id. split; [exact Hw|].
  intros Hpend. rewrite Hw, (map_incoming_pending input j Hpend). reflexivity.
Qed.

Lemma X17_read_then_write_echoes_witness :
  exists i buf' input',
    _read 0 [Byte.x00; Byte.x00; Byte.x00; Byte.x00] 4
      [Byte.x6f; Byte.x6b; Byte.x0a; Byte.x21] = Some (i, buf', input') /\
    0 <= i <= 4.
Proof.
  destruct (X17_read_then_write_echoes 0 1
              [Byte.x00; Byte.x00; Byte.x00; Byte.x00] 4
              [Byte.x6f; Byte.x6b; Byte.x0a; Byte.x21] [] ltac:(cbn; lia))
    as (i & buf' & input' & E & Hi & _).
  exists i, buf', input'. split; [exact E | exact Hi].
Defined.
